(** * dirchanges: a shallow embedding of watcher.go

    The watcher keeps three Go maps (registered roots, stored snapshot,
    ignore set) and computes, on demand, the list of events that separate
    the stored snapshot from a fresh listing of the roots.

    Go maps are finite maps ([gmap]) and sets ([gset]); the unspecified
    iteration order of [range] over a map is an explicit oracle ([Order]),
    so every statement about [getDiff] holds for every iteration order.
    The file system is a forest of nodes from which [os.Stat],
    [ioutil.ReadDir] and [filepath.Walk] are derived. *)

From stdpp Require Import gmap strings list fin_maps.
From Stdlib Require Import Ascii ZArith Lia.

Open Scope string_scope.
Set Warnings "-register-all".

(** ** Errors *)

(** The error values the package distinguishes.  [PathError] stands for a
    [*os.PathError]; its flag is what [os.IsNotExist] answers.  [OtherError]
    is any other error value (a hook's own error, a failing [Getwd], or an
    [os.ErrNotExist] that is not wrapped in a [*os.PathError]). *)
Inductive error : Type :=
  | ErrWatchedFileDeleted
  | ErrSkip
  | SkipDir
  | PathError (path : string) (notExist : bool)
  | OtherError (notExist : bool) (msg : string).

#[global] Instance error_eq_dec : EqDecision error.
Proof. solve_decision. Defined.

Definition IsNotExist (e : error) : bool :=
  match e with
  | PathError _ b => b
  | OtherError b _ => b
  | _ => false
  end.

(** A Go result pair [(value, err)] of a call that either fails or returns. *)
Inductive result (A : Type) : Type :=
  | Ok (a : A)
  | Err (e : error).
Arguments Ok {A} a.
Arguments Err {A} e.

#[global] Instance result_eq_dec {A : Type} `{EqDecision A} :
  EqDecision (result A).
Proof. solve_decision. Defined.

(** A call that may also panic (the unchecked type assertion of
    [retrieveFileList]). *)
Inductive outcome (A : Type) : Type :=
  | Returns (r : result A)
  | Panics.
Arguments Returns {A} r.
Arguments Panics {A}.

(** ** Operations and events *)

Inductive Op : Type := Create | Write | Remove | Rename | Chmod | Move.

#[global] Instance Op_eq_dec : EqDecision Op.
Proof. solve_decision. Defined.

Definition Op_to_nat (o : Op) : nat :=
  match o with
  | Create => 0 | Write => 1 | Remove => 2 | Rename => 3 | Chmod => 4 | Move => 5
  end.

Definition Op_of_nat (n : nat) : option Op :=
  match n with
  | 0 => Some Create | 1 => Some Write | 2 => Some Remove
  | 3 => Some Rename | 4 => Some Chmod | 5 => Some Move
  | _ => None
  end.

#[global] Instance Op_countable : Countable Op.
Proof.
  apply (inj_countable Op_to_nat Op_of_nat). intros []; reflexivity.
Defined.

Definition Op_String (e : Op) : string :=
  match e with
  | Create => "CREATE" | Write => "WRITE" | Remove => "REMOVE"
  | Rename => "RENAME" | Chmod => "CHMOD" | Move => "MOVE"
  end.

(** [os.FileInfo], as the package's own [fileInfo] struct lays it out.  The
    modification time is an instant (nanoseconds), the mode a 32-bit word,
    [sys] the opaque identity of the underlying file. *)
Record FileInfo : Type := mkFileInfo {
  Name : string;
  Size : Z;
  Mode : Z;
  ModTime : Z;
  Sys : Z;
  IsDir : bool
}.

#[global] Instance FileInfo_eq_dec : EqDecision FileInfo.
Proof. solve_decision. Defined.

Record Event : Type := mkEvent {
  EvOp : Op;
  Path : string;
  OldPath : string;
  Info : FileInfo
}.

#[global] Instance Event_eq_dec : EqDecision Event.
Proof. solve_decision. Defined.

(** ** Paths

    Every key of the watcher's maps is the result of [filepath.Abs] or of
    [filepath.Join] on such a path and a base name, hence a clean path; the
    functions below are [path/filepath] on clean paths. *)

Definition slash : ascii := "/"%char.

(** [filepath.Join dir name] for a clean [dir] and a base name. *)
Definition Join (dir name : string) : string :=
  if decide (dir = "/") then "/" +:+ name else dir +:+ "/" +:+ name.

(** The part of a path before its last separator, if it has one. *)
Fixpoint beforeLastSlash (s : string) : option string :=
  match s with
  | EmptyString => None
  | String c s' =>
      match beforeLastSlash s' with
      | Some d => Some (String c d)
      | None => if decide (c = slash) then Some "" else None
      end
  end.

(** [filepath.Dir] of a clean path. *)
Definition Dir (path : string) : string :=
  match beforeLastSlash path with
  | None => "."
  | Some "" => "/"
  | Some d => d
  end.

(** [strings.HasPrefix s prefix]. *)
Definition HasPrefix (s pre : string) : bool := String.prefix pre s.

(** [key] is [root] itself or lies under the directory [root]. *)
Definition underPath (root key : string) : Prop :=
  key = root ∨ HasPrefix key (root +:+ "/") = true.

(** ** The file system *)

(** What [lstat] and [readDirNames] answer for one name: a non-directory, a
    directory with its entries in the order [readDirNames] returns them, a
    directory that cannot be read, or a name whose [lstat] fails. *)
Inductive Node : Type :=
  | File (info : FileInfo)
  | Directory (info : FileInfo) (entries : list (string * Node))
  | Unreadable (info : FileInfo) (e : error)
  | Broken (e : error).

Definition asFile (i : FileInfo) : FileInfo :=
  mkFileInfo (Name i) (Size i) (Mode i) (ModTime i) (Sys i) false.
Definition asDir (i : FileInfo) : FileInfo :=
  mkFileInfo (Name i) (Size i) (Mode i) (ModTime i) (Sys i) true.

(** The [FileInfo] a node reports; directories and only they report
    [IsDir]. *)
Definition nodeInfo (n : Node) : result FileInfo :=
  match n with
  | File i => Ok (asFile i)
  | Directory i _ => Ok (asDir i)
  | Unreadable i _ => Ok (asDir i)
  | Broken e => Err e
  end.

(** Every path below (and including) [path], with the node found there,
    in the order of a walk. *)
Fixpoint subnodes (path : string) (n : Node) : list (string * Node) :=
  (path, n) ::
  match n with
  | Directory _ es => flat_map (λ e, subnodes (Join path e.1) e.2) es
  | _ => []
  end.

(** A file system: how relative names resolve ([filepath.Abs]) and the
    trees mounted at absolute paths. *)
Record FileSystem : Type := mkFS {
  fsAbs : string → result string;
  fsRoots : list (string * Node)
}.

Definition allNodes (fs : FileSystem) : list (string * Node) :=
  flat_map (λ r, subnodes r.1 r.2) (fsRoots fs).

Fixpoint findNode (p : string) (l : list (string * Node)) : option Node :=
  match l with
  | [] => None
  | (q, n) :: rest => if decide (q = p) then Some n else findNode p rest
  end.

Definition lookupNode (fs : FileSystem) (p : string) : option Node :=
  findNode p (allNodes fs).

(** [os.Stat] (the model has no symbolic links, so also [os.Lstat]). *)
Definition Stat (fs : FileSystem) (name : string) : result FileInfo :=
  match lookupNode fs name with
  | None => Err (PathError name true)
  | Some n => nodeInfo n
  end.

(** [ioutil.ReadDir]: the entries' [FileInfo]s; an entry that vanished
    between reading the names and its [lstat] is left out, any other
    [lstat] failure fails the call. *)
Fixpoint readEntries (es : list (string * Node)) : result (list FileInfo) :=
  match es with
  | [] => Ok []
  | (_, n) :: rest =>
      match nodeInfo n with
      | Ok i =>
          match readEntries rest with
          | Ok l => Ok (i :: l)
          | Err e => Err e
          end
      | Err e => if IsNotExist e then readEntries rest else Err e
      end
  end.

Definition ReadDir (fs : FileSystem) (name : string) : result (list FileInfo) :=
  match lookupNode fs name with
  | None => Err (PathError name true)
  | Some (Directory _ es) => readEntries es
  | Some (Unreadable _ e) => Err e
  | Some (File _) => Err (PathError name false)
  | Some (Broken e) => Err e
  end.

(** [filepath.Walk].  [walkFn path lstat s] is the callback on the state
    [s] it closes over: [lstat] is [Ok info] when the callback is called
    with a nil error and [Err e] when it is called with error [e]. *)
Definition WalkFunc (S : Type) : Type :=
  string → result FileInfo → S → S * option error.

Section Walk.
Context {S : Type} (walkFn : WalkFunc S).

(** The loop of [walk] over the names of a directory.  A [SkipDir] that
    comes back from a directory, or from the callback on a name whose
    [lstat] failed, is dropped; one that comes back from a
    non-directory ends the loop and is returned. *)
Definition walkEntries (walkChild : string → Node → S → S * option error)
    (path : string) : list (string * Node) → S → S * option error :=
  fix loop (es : list (string * Node)) (s : S) : S * option error :=
    match es with
    | [] => (s, None)
    | e :: rest =>
        let '(s', r) := walkChild (Join path e.1) e.2 s in
        match r with
        | None => loop rest s'
        | Some err =>
            if decide (err = SkipDir) then
              match e.2 with
              | File _ => (s', Some err)
              | _ => loop rest s'
              end
            else (s', Some err)
        end
    end.

Fixpoint walk (path : string) (n : Node) (s : S) : S * option error :=
  match n with
  | File i => walkFn path (Ok (asFile i)) s
  | Broken e => walkFn path (Err e) s
  | Unreadable i e => walkFn path (Err e) s
  | Directory i es =>
      let '(s1, err1) := walkFn path (Ok (asDir i)) s in
      match err1 with
      | Some e => (s1, Some e)
      | None => walkEntries walk path es s1
      end
  end.

Definition Walk (fs : FileSystem) (root : string) (s : S) : S * option error :=
  let '(s', err) :=
    match lookupNode fs root with
    | None => walkFn root (Err (PathError root true)) s
    | Some n => walk root n s
    end in
  if decide (err = Some SkipDir) then (s', None) else (s', err).
End Walk.

(** ** The watcher *)

(** [FilterFileHookFunc]: [None] is a nil error. *)
Definition FilterFileHookFunc : Type := FileInfo → string → option error.

(** [RegexFilterHook]; the compiled regular expression is its
    [MatchString]. *)
Definition RegexFilterHook (r : string → bool) (useFullPath : bool)
  : FilterFileHookFunc :=
  λ info fullPath,
    let str := if useFullPath then fullPath else Name info in
    if r str then None else Some ErrSkip.

Record Watcher : Type := mkWatcher {
  ffh : list FilterFileHookFunc;
  names : gmap string bool;
  files : gmap string FileInfo;
  ignored : gset string;
  ops : option (gset Op);
  ignoreHidden : bool
}.

Definition New : Watcher :=
  mkWatcher [] ∅ ∅ ∅ None false.

Definition setNames (w : Watcher) (n : gmap string bool) : Watcher :=
  mkWatcher (ffh w) n (files w) (ignored w) (ops w) (ignoreHidden w).
Definition setFiles (w : Watcher) (f : gmap string FileInfo) : Watcher :=
  mkWatcher (ffh w) (names w) f (ignored w) (ops w) (ignoreHidden w).
Definition setIgnored (w : Watcher) (i : gset string) : Watcher :=
  mkWatcher (ffh w) (names w) (files w) i (ops w) (ignoreHidden w).

Definition AddFilterHook (f : FilterFileHookFunc) (w : Watcher) : Watcher :=
  mkWatcher (ffh w ++ [f])%list (names w) (files w) (ignored w) (ops w)
            (ignoreHidden w).

Definition IgnoreHiddenFiles (ignore : bool) (w : Watcher) : Watcher :=
  mkWatcher (ffh w) (names w) (files w) (ignored w) (ops w) ignore.

Definition FilterOps (l : list Op) (w : Watcher) : Watcher :=
  mkWatcher (ffh w) (names w) (files w) (ignored w)
            (Some (fold_left (λ s op, {[op]} ∪ s) l ∅)) (ignoreHidden w).

(** The loop over [w.ffh] that both listings run on an entry. *)
Inductive verdict : Type :=
  | Pass
  | Skip
  | Abort (e : error).

Fixpoint runHooks (hooks : list FilterFileHookFunc) (info : FileInfo)
    (path : string) : verdict :=
  match hooks with
  | [] => Pass
  | f :: rest =>
      match f info path with
      | None => runHooks rest info path
      | Some e => if decide (e = ErrSkip) then Skip else Abort e
      end
  end.

(** The two helpers that live in the per-platform files. *)
Class Platform : Type := {
  sameFile : FileInfo → FileInfo → bool;
  isHiddenFile : string → result bool
}.

Section Listing.
Context `{Platform}.
Variable fs : FileSystem.

Definition excluded (w : Watcher) (path : string) (isHidden : bool) : bool :=
  bool_decide (path ∈ ignored w) || (ignoreHidden w && isHidden).

(** The [outer] loop of [list] over the directory's entries. *)
Fixpoint listEntries (w : Watcher) (name : string) (fInfoList : list FileInfo)
    (fileList : gmap string FileInfo) : result (gmap string FileInfo) :=
  match fInfoList with
  | [] => Ok fileList
  | fInfo :: rest =>
      let path := Join name (Name fInfo) in
      match isHiddenFile path with
      | Err e => Err e
      | Ok isHidden =>
          if excluded w path isHidden then listEntries w name rest fileList
          else
            match runHooks (ffh w) fInfo path with
            | Skip => listEntries w name rest fileList
            | Abort e => Err e
            | Pass => listEntries w name rest (<[path := fInfo]> fileList)
            end
      end
  end.

(** The method [list] (the name is taken by the list type). *)
Definition Watcher_list (w : Watcher) (name : string)
  : result (gmap string FileInfo) :=
  match Stat fs name with
  | Err e => Err e
  | Ok stat =>
      let fileList : gmap string FileInfo := {[name := stat]} in
      if negb (IsDir stat) then Ok fileList
      else
        match ReadDir fs name with
        | Err e => Err e
        | Ok fInfoList => listEntries w name fInfoList fileList
        end
  end.

(** The callback [listRecursive] hands to [filepath.Walk]. *)
Definition listWalkFn (w : Watcher) : WalkFunc (gmap string FileInfo) :=
  λ path lstat fileList,
    match lstat with
    | Err e => (fileList, Some e)
    | Ok info =>
        match runHooks (ffh w) info path with
        | Skip => (fileList, None)
        | Abort e => (fileList, Some e)
        | Pass =>
            match isHiddenFile path with
            | Err e => (fileList, Some e)
            | Ok isHidden =>
                if excluded w path isHidden then
                  if IsDir info then (fileList, Some SkipDir)
                  else (fileList, None)
                else (<[path := info]> fileList, None)
            end
        end
    end.

(** [listRecursive] returns its map together with the error of the
    walk. *)
Definition listRecursive (w : Watcher) (name : string)
  : gmap string FileInfo * option error :=
  Walk (listWalkFn w) fs name ∅.

(** Each method returns the watcher it leaves behind and its error. *)
Definition Add (name : string) (w : Watcher) : Watcher * option error :=
  match fsAbs fs name with
  | Err e => (w, Some e)
  | Ok name =>
      match isHiddenFile name with
      | Err e => (w, Some e)
      | Ok isHidden =>
          if excluded w name isHidden then (w, None)
          else
            match Watcher_list w name with
            | Err e => (w, Some e)
            | Ok fileList =>
                (setNames (setFiles w (fileList ∪ files w))
                          (<[name := false]> (names w)), None)
            end
      end
  end.

Definition AddRecursive (name : string) (w : Watcher) : Watcher * option error :=
  match fsAbs fs name with
  | Err e => (w, Some e)
  | Ok name =>
      match listRecursive w name with
      | (_, Some e) => (w, Some e)
      | (fileList, None) =>
          (setNames (setFiles w (fileList ∪ files w))
                    (<[name := true]> (names w)), None)
      end
  end.

(** The loops of [Remove] and [RemoveRecursive] delete, among the keys
    they range over, those that pass a test on the key alone: a filter
    of the map, whatever the iteration order.  The method [Remove] is
    [Watcher_Remove]: the name is taken by the operation kind. *)
Definition Watcher_Remove (name : string) (w : Watcher) : Watcher * option error :=
  match fsAbs fs name with
  | Err e => (w, Some e)
  | Ok name =>
      let w := setNames w (delete name (names w)) in
      match files w !! name with
      | None => (w, None)
      | Some info =>
          if negb (IsDir info) then (setFiles w (delete name (files w)), None)
          else
            (setFiles w (filter (λ kv, Dir kv.1 ≠ name)
                                (delete name (files w))), None)
      end
  end.

Definition RemoveRecursive (name : string) (w : Watcher)
  : Watcher * option error :=
  match fsAbs fs name with
  | Err e => (w, Some e)
  | Ok name =>
      let w := setNames w (delete name (names w)) in
      match files w !! name with
      | None => (w, None)
      | Some info =>
          if negb (IsDir info) then (setFiles w (delete name (files w)), None)
          else
            (setFiles w (filter (λ kv, HasPrefix kv.1 name = false)
                                (files w)), None)
      end
  end.

Fixpoint Ignore (paths : list string) (w : Watcher) : Watcher * option error :=
  match paths with
  | [] => (w, None)
  | path :: rest =>
      match fsAbs fs path with
      | Err e => (w, Some e)
      | Ok path =>
          match RemoveRecursive path w with
          | (w', Some e) => (w', Some e)
          | (w', None) => Ignore rest (setIgnored w' ({[path]} ∪ ignored w'))
          end
      end
  end.

Definition WatchedFiles (w : Watcher) : gmap string FileInfo := files w.
End Listing.

(** ** Iteration order of [range] over a map *)

(** The [range] loops whose result depends on the order Go picks. *)
Inductive loop : Type :=
  | LoopNames
  | LoopStored
  | LoopFresh
  | LoopRemoves
  | LoopCreates (path1 : string)
  | LoopRestCreates
  | LoopRestRemoves.

(** An iteration order: for every loop, some arrangement of the keys. *)
Record Order : Type := mkOrder {
  enum : loop → list string → list string;
  enum_perm : ∀ l ks, enum l ks ≡ₚ ks
}.

(** The entries a [range] over [m] produces, in the order [o] picks for
    loop [l].  Every loop below deletes, from the map it ranges over, at
    most the entry it is at, so the entries produced are those of the map
    when the loop starts. *)
Definition rangeOf {A : Type} (o : Order) (l : loop) (m : gmap string A)
  : list (string * A) :=
  omap (λ k, pair k <$> m !! k) (enum o l (map_to_list m).*1).

Section Diff.
Context `{Platform}.
Variable fs : FileSystem.
Variable o : Order.

(** What one root contributes in [retrieveFileList]: the map assigned to
    [list] and the error of the listing. *)
Definition listRoot (w : Watcher) (name : string) (recursive : bool)
  : gmap string FileInfo * option error :=
  if recursive then listRecursive fs w name
  else
    match Watcher_list fs w name with
    | Ok l => (l, None)
    | Err e => (∅, Some e)
    end.

(** The loop of [retrieveFileList] over [w.names]. *)
Fixpoint retrieveLoop (w : Watcher) (roots : list (string * bool))
    (fileList : gmap string FileInfo) : outcome (gmap string FileInfo) :=
  match roots with
  | [] => Returns (Ok fileList)
  | (name, recursive) :: rest =>
      let '(l, err) := listRoot w name recursive in
      match err with
      | None => retrieveLoop w rest (l ∪ fileList)
      | Some e =>
          if IsNotExist e then
            match e with
            | PathError p _ =>
                if decide (name = p) then Returns (Err ErrWatchedFileDeleted)
                else retrieveLoop w rest (l ∪ fileList)
            | _ => Panics
            end
          else Returns (Err e)
      end
  end.

(** [retrieveFileList].  The calls to [RemoveRecursive] and [Remove] in
    the source stand after a [return] and never run, so the watcher that
    is left behind is the one that was given. *)
Definition retrieveFileList (w : Watcher)
  : Watcher * outcome (gmap string FileInfo) :=
  (w, retrieveLoop w (rangeOf o LoopNames (names w)) ∅).

(** First loop of [getDiff]: the removed candidates. *)
Definition removed (w : Watcher) (fileList : gmap string FileInfo)
  : gmap string FileInfo :=
  fold_left
    (λ removes kv,
       match fileList !! kv.1 with
       | None => <[kv.1 := kv.2]> removes
       | Some _ => removes
       end)
    (rangeOf o LoopStored (files w)) ∅.

(** Second loop: the created candidates and the Write and Chmod events. *)
Definition changedStep (w : Watcher) (st : gmap string FileInfo * list Event)
    (kv : string * FileInfo) : gmap string FileInfo * list Event :=
  let '(creates, res) := st in
  let '(path, info) := kv in
  match files w !! path with
  | None => (<[path := info]> creates, res)
  | Some oldInfo =>
      let res1 :=
        if decide (ModTime oldInfo ≠ ModTime info)
        then (res ++ [mkEvent Write path path info])%list else res in
      let res2 :=
        if decide (Mode oldInfo ≠ Mode info)
        then (res1 ++ [mkEvent Chmod path path info])%list else res1 in
      (creates, res2)
  end.

Definition changed (w : Watcher) (fileList : gmap string FileInfo)
  : gmap string FileInfo * list Event :=
  fold_left (changedStep w) (rangeOf o LoopFresh fileList) (∅, []).

(** Third loop: renames and moves.  The state is [removes], [creates]
    and [res]. *)
Definition corrState : Type :=
  (gmap string FileInfo * gmap string FileInfo * list Event)%type.

Definition corrInner (path1 : string) (info1 : FileInfo) (st : corrState)
    (kv : string * FileInfo) : corrState :=
  let '(removes, creates, res) := st in
  let '(path2, info2) := kv in
  if sameFile info1 info2 then
    let e := mkEvent (if decide (Dir path1 = Dir path2) then Rename else Move)
                     path2 path1 info1 in
    (delete path1 removes, delete path2 creates, (res ++ [e])%list)
  else st.

Definition corrOuter (st : corrState) (kv : string * FileInfo) : corrState :=
  fold_left (corrInner kv.1 kv.2) (rangeOf o (LoopCreates kv.1) st.1.2) st.

Definition correlate (removes creates : gmap string FileInfo)
    (res : list Event) : corrState :=
  fold_left corrOuter (rangeOf o LoopRemoves removes) (removes, creates, res).

(** The events of [getDiff] before the operation filter: the value of
    [res] when the last two loops are done. *)
Definition diffEvents (w : Watcher) (fileList : gmap string FileInfo)
  : list Event :=
  let removes := removed w fileList in
  let '(creates, res) := changed w fileList in
  let '(removes, creates, res) := correlate removes creates res in
  let res :=
    fold_left (λ res kv, res ++ [mkEvent Create kv.1 "" kv.2])%list
              (rangeOf o LoopRestCreates creates) res in
  fold_left (λ res kv, res ++ [mkEvent Remove kv.1 kv.1 kv.2])%list
            (rangeOf o LoopRestRemoves removes) res.

(** The filter on [w.ops] that ends [getDiff]. *)
Definition filterRes (wops : option (gset Op)) (res : list Event)
  : list Event :=
  match wops with
  | None => res
  | Some s =>
      if decide (0 < size s) then
        fold_left (λ filteredRes event,
                     if decide (EvOp event ∈ s)
                     then (filteredRes ++ [event])%list else filteredRes)
                  res []
      else res
  end.

Definition getDiff (w : Watcher) (fileList : gmap string FileInfo)
  : list Event :=
  filterRes (ops w) (diffEvents w fileList).

Definition Diff (w : Watcher) : Watcher * outcome (list Event) :=
  match retrieveFileList w with
  | (w', Returns (Ok fileList)) => (w', Returns (Ok (getDiff w' fileList)))
  | (w', Returns (Err e)) => (w', Returns (Err e))
  | (w', Panics) => (w', Panics)
  end.
End Diff.

(** ** The helpers of the Unix build *)

(** The last element of a path that has one. *)
Fixpoint lastElem (path : string) : string :=
  match path with
  | EmptyString => ""
  | String c s' =>
      match beforeLastSlash s' with
      | Some _ => lastElem s'
      | None => if decide (c = slash) then s' else path
      end
  end.

(** [filepath.Base] of a clean path. *)
Definition Base (path : string) : string :=
  if decide (path = "") then "."
  else if decide (path = "/") then "/"
  else lastElem path.

(** Modelled from the spec: [sameFile] and [isHiddenFile], which are in
    the per-platform source files.  Two entries are the same file when
    their identity tokens are equal, and a name is hidden when its base
    name starts with a dot. *)
#[global] Instance unixPlatform : Platform := {|
  sameFile := λ fi1 fi2, bool_decide (Sys fi1 = Sys fi2);
  isHiddenFile := λ path, Ok (HasPrefix (Base path) ".")
|}.

(** The order that leaves the keys as the map lists them, and its
    reverse. *)
Definition mapOrder : Order := mkOrder (λ _ ks, ks) (λ _ ks, reflexivity ks).

Definition reverseOrder : Order :=
  mkOrder (λ _ ks, reverse ks) (λ _ ks, reverse_Permutation ks).

(** The file system with the given trees in which every name is already
    absolute and clean. *)
Definition absFS (roots : list (string * Node)) : FileSystem :=
  mkFS (λ name, Ok name) roots.

Definition info (name : string) (mtime mode sys : Z) : FileInfo :=
  mkFileInfo name 0 mode mtime sys false.

(** ** The vocabulary of the properties *)

(** The Write and Chmod events of one fresh entry. *)
Definition inPlace (w : Watcher) (kv : string * FileInfo) : list Event :=
  match files w !! kv.1 with
  | None => []
  | Some oldInfo =>
      ((if decide (ModTime oldInfo ≠ ModTime kv.2)
        then [mkEvent Write kv.1 kv.1 kv.2] else [])
       ++ (if decide (Mode oldInfo ≠ Mode kv.2)
           then [mkEvent Chmod kv.1 kv.1 kv.2] else []))%list
  end.

(** The event of the pair made of the removed [path1] and a created
    entry. *)
Definition evOf (path1 : string) (info1 : FileInfo) (kv : string * FileInfo)
  : Event :=
  mkEvent (if decide (Dir path1 = Dir kv.1) then Rename else Move)
          kv.1 path1 info1.

Definition createOf (kv : string * FileInfo) : Event :=
  mkEvent Create kv.1 "" kv.2.
Definition removeOf (kv : string * FileInfo) : Event :=
  mkEvent Remove kv.1 kv.1 kv.2.

Definition present (m : gmap string FileInfo) (k : string) : nat :=
  match m !! k with Some _ => 1 | None => 0 end.

Section Vocabulary.
Context `{Platform}.

(** The created entries that are the same file as [info1]. *)
Definition hits (info1 : FileInfo) (l : list (string * FileInfo))
  : list (string * FileInfo) :=
  filter (λ kv, sameFile info1 kv.2 = true) l.

(** What holds between two rounds of the outer loop of the rename and
    move pass, started on [removes0] and [creates0]: [todo] are the
    removed entries still to come, [removes] and [creates] the two maps,
    [evs] the events the loop has appended so far. *)
Record corrInv (removes0 creates0 : gmap string FileInfo)
    (todo : list (string * FileInfo))
    (removes creates : gmap string FileInfo) (evs : list Event) : Prop := {
  inv_todo : ∀ k v, (k, v) ∈ todo → removes0 !! k = Some v;
  inv_removes : ∀ k v, removes !! k = Some v → removes0 !! k = Some v;
  inv_creates : ∀ k v, creates !! k = Some v → creates0 !! k = Some v;
  inv_events : ∀ e, e ∈ evs →
    ∃ p1 i1 p2 i2, e = evOf p1 i1 (p2, i2) ∧ removes0 !! p1 = Some i1
                   ∧ creates0 !! p2 = Some i2 ∧ sameFile i1 i2 = true;
  inv_consumed : ∀ e, e ∈ evs → removes !! OldPath e = None;
  inv_count : ∀ p2,
    length (filter (λ e, Path e = p2) evs) + present creates p2
    = present creates0 p2;
  inv_done : ∀ p1 i1, removes0 !! p1 = Some i1 → p1 ∉ todo.*1 →
    ∀ p2 i2, creates !! p2 = Some i2 → sameFile i1 i2 = false
}.

(** The events a diff of the stored mapping of [w] and [fileList] can
    hold. *)
Inductive eventOf (w : Watcher) (fileList : gmap string FileInfo)
  : Event → Prop :=
  | ev_write p old new :
      files w !! p = Some old → fileList !! p = Some new →
      ModTime old ≠ ModTime new →
      eventOf w fileList (mkEvent Write p p new)
  | ev_chmod p old new :
      files w !! p = Some old → fileList !! p = Some new →
      Mode old ≠ Mode new →
      eventOf w fileList (mkEvent Chmod p p new)
  | ev_pair p1 i1 p2 i2 :
      files w !! p1 = Some i1 → fileList !! p1 = None →
      fileList !! p2 = Some i2 → files w !! p2 = None →
      sameFile i1 i2 = true →
      eventOf w fileList (evOf p1 i1 (p2, i2))
  | ev_create p i :
      fileList !! p = Some i → files w !! p = None →
      eventOf w fileList (createOf (p, i))
  | ev_remove p i :
      files w !! p = Some i → fileList !! p = None →
      eventOf w fileList (removeOf (p, i)).

(** What the loop of [list] decides for one entry of the directory:
    kept, left out, or the error that ends the listing. *)
Definition childVerdict (w : Watcher) (name : string) (fInfo : FileInfo)
  : result bool :=
  let path := Join name (Name fInfo) in
  match isHiddenFile path with
  | Err e => Err e
  | Ok isHidden =>
      if excluded w path isHidden then Ok false
      else
        match runHooks (ffh w) fInfo path with
        | Pass => Ok true
        | Skip => Ok false
        | Abort e => Err e
        end
  end.

(** The immediate children the filtering chain lets through. *)
Definition kept (w : Watcher) (name : string) (fInfoList : list FileInfo)
  : list FileInfo :=
  filter (λ fInfo, childVerdict w name fInfo = Ok true) fInfoList.
End Vocabulary.

(** A loop that stores every element of [l] under its key. *)
Definition store {A : Type} (key : A → string) (l : list A)
    (acc : gmap string A) : gmap string A :=
  fold_left (λ m i, <[key i := i]> m) l acc.

(** Deleting the keys of [l] one after the other. *)
Definition deleteAll {A : Type} (l : list (string * A)) (m : gmap string A)
  : gmap string A :=
  fold_left (λ m kv, delete kv.1 m) l m.

(** The operation filter keeps an event when no filter is installed, when
    the filter is empty, or when the kind of the event is in it. *)
Definition keeps (wops : option (gset Op)) (op : Op) : Prop :=
  match wops with
  | None => True
  | Some s => size s = 0 ∨ op ∈ s
  end.

Definition isPair (e : Event) : Prop := EvOp e = Rename ∨ EvOp e = Move.

(** The paths an event speaks of: [OldPath] says nothing in a Create. *)
Definition evPaths (e : Event) : list string :=
  match EvOp e with
  | Create => [Path e]
  | _ => [Path e; OldPath e]
  end.

(** The events that speak of the removed path [r] or of the created path
    [c]. *)
Definition concerns (r c : string) (e : Event) : Prop :=
  r ∈ evPaths e ∨ c ∈ evPaths e.

#[global] Instance concerns_dec (r c : string) (e : Event) :
  Decision (concerns r c e).
Proof. unfold concerns. apply _. Defined.

#[global] Instance isPair_dec (e : Event) : Decision (isPair e).
Proof. unfold isPair. apply _. Defined.

(** A callback that also records, after its state, the paths it is called
    on. *)
Definition logged {S : Type} (f : WalkFunc S) : WalkFunc (S * list string) :=
  λ path lstat st,
    let '(s', r) := f path lstat st.1 in ((s', (st.2 ++ [path])%list), r).

(** The paths [listRecursive] visits: those its callback is called on. *)
Definition visited `{Platform} (fs : FileSystem) (w : Watcher) (name : string)
  : list string :=
  (Walk (logged (listWalkFn w)) fs name (∅, [])).1.2.

(** The paths strictly below the directory [path] with entries [es]. *)
Definition below (path : string) (es : list (string * Node)) : list string :=
  (flat_map (λ e, subnodes (Join path e.1) e.2) es).*1.

(** A removed entry stays in [removes] until a Rename or Move takes it
    out: what the rename and move loop keeps of [removes0], on the state
    [removes], [creates], [res]. *)
Definition keptOrPaired (removes0 : gmap string FileInfo)
    (st : gmap string FileInfo * gmap string FileInfo * list Event) : Prop :=
  ∀ k v, removes0 !! k = Some v →
         st.1.1 !! k = Some v ∨ ∃ e, e ∈ st.2 ∧ isPair e ∧ OldPath e = k.

(** A tree every name of which can be [lstat]ed and every directory of
    which can be read. *)
Fixpoint readable (n : Node) : bool :=
  match n with
  | File _ => true
  | Directory _ es => forallb (λ e, readable e.2) es
  | Unreadable _ _ => false
  | Broken _ => false
  end.

(** Storing a node of the tree under its path. *)
Definition insNode (m : gmap string FileInfo) (pn : string * Node)
  : gmap string FileInfo :=
  match nodeInfo pn.2 with
  | Ok i => <[pn.1 := i]> m
  | Err _ => m
  end.

(** What the filtering chain of [w] lets through: the hooks pass, the
    path is not ignored and, when hidden files are ignored, not hidden. *)
Definition admitted `{Platform} (w : Watcher) (path : string) (i : FileInfo)
  : Prop :=
  runHooks (ffh w) i path = Pass
  ∧ (path ∉ ignored w)
  ∧ ∃ isHidden, isHiddenFile path = Ok isHidden
                ∧ (ignoreHidden w = true → isHidden = false).

(** A root whose listing lets the loop of [retrieveFileList] go on: the
    listing succeeds, or fails with a not-exist [*os.PathError] of a path
    other than the root. *)
Definition quiet (name : string) (err : option error) : Prop :=
  match err with
  | None => True
  | Some (PathError p true) => p ≠ name
  | Some _ => False
  end.

(** The hook of a regular expression, given with its [useFullPath]. *)
Definition regexHook (rb : (string → bool) * bool) : FilterFileHookFunc :=
  RegexFilterHook rb.1 rb.2.

(** ** Watchers, listings and trees of the examples *)

(** A directory [/a] that holds the directory [b], with one file, and
    the file [bc]. *)
Definition siblingsFS : FileSystem :=
  absFS [("/a", Directory (info "a" 1 493 8)
                  [("b", Directory (info "b" 1 493 1)
                           [("c", File (info "c" 1 420 2))]);
                   ("bc", File (info "bc" 1 420 3))])].

(** The watcher after [Add "/a/b/c"]: the file is stored, its directory
    is not. *)
Definition watcherOfFile : Watcher := (Add siblingsFS "/a/b/c" New).1.

(** The watcher after [AddRecursive "/a/b"] and [Add "/a/bc"]: it stores
    the directory [/a/b], the file in it and the sibling file [/a/bc]. *)
Definition watcherOfSiblings : Watcher :=
  (Add siblingsFS "/a/bc" (AddRecursive siblingsFS "/a/b" New).1).1.

(** A tree under [/r]: a source file, a hidden directory and a
    sub-directory, each directory with one file. *)
Definition treeFS : FileSystem :=
  absFS [("/r", Directory (info "r" 1 493 1)
                  [(".git", Directory (info ".git" 1 493 3)
                              [("cfg", File (info "cfg" 1 420 4))]);
                   ("a.go", File (info "a.go" 1 420 2));
                   ("sub", Directory (info "sub" 1 493 5)
                             [("main.go", File (info "main.go" 1 420 6))])])].

(** The watcher after [AddRecursive "/r"] on [treeFS]. *)
Definition watcherOfTree : Watcher := (AddRecursive treeFS "/r" New).1.

(** Two watchers whose only root, [/gone], is registered (shallow, and
    recursive) and stored; on the empty file system the root is gone. *)
Definition watcherOfGone (recursive : bool) : Watcher :=
  mkWatcher [] {["/gone" := recursive]} {["/gone" := info "gone" 1 420 9]}
            ∅ None false.

(** A stored mapping with one file and a fresh listing in which the file
    has a later modification time and other mode bits. *)
Definition watcherOfA : Watcher :=
  mkWatcher [] {["/d" := false]} {["/d/a" := info "a" 1 420 10]} ∅ None false.

Definition touchedA : gmap string FileInfo := {["/d/a" := info "a" 2 493 10]}.

(** A stored file [/d/b] that the fresh listing no longer has, and a
    fresh file [/d/x] with the identity of [/d/b]: a rename. *)
Definition watcherOfB : Watcher :=
  mkWatcher [] {["/d" := true]}
    (<["/d" := asDir (info "d" 1 493 1)]> {["/d/b" := info "b" 1 420 11]})
    ∅ None false.

Definition renamedB : gmap string FileInfo :=
  <["/d" := asDir (info "d" 1 493 1)]> {["/d/x" := info "x" 1 420 11]}.

(** A hook that skips every entry. *)
Definition skipAll : FilterFileHookFunc := RegexFilterHook (λ _, false) false.

(** A hook that lets every name through but [sub]. *)
Definition notSub : FilterFileHookFunc :=
  RegexFilterHook (λ s, bool_decide (s ≠ "sub")) false.

(** A fresh listing in which [/d/a] is gone and a file of another
    identity has appeared. *)
Definition createdY : gmap string FileInfo := {["/d/y" := info "y" 1 420 12]}.

(** A file system without a working directory: [filepath.Abs] answers
    for absolute names only. *)
Definition noCwdFS : FileSystem :=
  mkFS (λ name, if HasPrefix name "/" then Ok name
                else Err (OtherError false "getwd"))
       [].

(** A hook that answers a not-exist error that is no [*os.PathError]. *)
Definition staleHook : FilterFileHookFunc :=
  λ _ _, Some (OtherError true "stale").

(** A watcher with that hook and the recursive root [/r]. *)
Definition watcherOfStale : Watcher :=
  mkWatcher [staleHook] {["/r" := true]} ∅ ∅ None false.

(** The listing of [touchedA] with one more file, and a listing that
    holds the directory [/d] alone. *)
Definition touchedAndCreated : gmap string FileInfo :=
  <["/d/y" := info "y" 1 420 12]> touchedA.

Definition onlyD : gmap string FileInfo := {["/d" := asDir (info "d" 1 493 1)]}.

(** The tree mounted at [/r] in [treeFS]. *)
Definition treeOfR : Node :=
  Directory (info "r" 1 493 1)
    [(".git", Directory (info ".git" 1 493 3)
                [("cfg", File (info "cfg" 1 420 4))]);
     ("a.go", File (info "a.go" 1 420 2));
     ("sub", Directory (info "sub" 1 493 5)
               [("main.go", File (info "main.go" 1 420 6))])].

(** * Properties *)

(** ** Strings and paths *)

Lemma prefix_nil (s : string) : String.prefix "" s = true.
Proof. by destruct s. Qed.

Lemma prefix_cons (c b : ascii) (p s : string) :
  String.prefix (String c p) (String b s)
  = if decide (c = b) then String.prefix p s else false.
Proof. simpl. destruct (Ascii.ascii_dec c b), (decide (c = b)); done. Qed.

Lemma prefix_app (p s : string) : String.prefix p (p +:+ s) = true.
Proof.
  induction p as [|c p IH]; [apply prefix_nil|].
  change (String c p +:+ s) with (String c (p +:+ s)).
  rewrite prefix_cons. by rewrite decide_True.
Qed.

Lemma prefix_app_l (p q s : string) :
  String.prefix (p +:+ q) s = true → String.prefix p s = true.
Proof.
  revert s. induction p as [|c p IH]; intros s; [intros _; apply prefix_nil|].
  change (String c p +:+ q) with (String c (p +:+ q)).
  destruct s as [|b s]; [done|].
  rewrite !prefix_cons. case_decide; [apply IH | done].
Qed.

Lemma prefix_refl (p : string) : String.prefix p p = true.
Proof.
  induction p as [|c p IH]; [done|].
  rewrite prefix_cons. by rewrite decide_True.
Qed.

(** A key at or under a directory starts with the directory's path. *)
Lemma underPath_HasPrefix (root key : string) :
  underPath root key → HasPrefix key root = true.
Proof.
  unfold underPath, HasPrefix. intros [-> | Hp].
  - apply prefix_refl.
  - by apply prefix_app_l in Hp.
Qed.

(** ** Removal *)

Section Removal.
Variable fs : FileSystem.

(** C10.  When the absolute path [P] has no entry in the stored mapping,
    [Remove P] and [RemoveRecursive P] both return a nil error, delete
    [P] from the registration set and leave the stored mapping (and the
    rest of the watcher) as it was. *)
Theorem Remove_absent (w : Watcher) (P : string) :
  fsAbs fs P = Ok P →
  files w !! P = None →
  (Watcher_Remove fs P w).2 = None
  ∧ names (Watcher_Remove fs P w).1 = delete P (names w)
  ∧ files (Watcher_Remove fs P w).1 = files w
  ∧ (RemoveRecursive fs P w).2 = None
  ∧ names (RemoveRecursive fs P w).1 = delete P (names w)
  ∧ files (RemoveRecursive fs P w).1 = files w
  ∧ Watcher_Remove fs P w = (setNames w (delete P (names w)), None)
  ∧ RemoveRecursive fs P w = (setNames w (delete P (names w)), None).
Proof.
  intros Habs Hnone.
  unfold Watcher_Remove, RemoveRecursive. rewrite Habs. simpl.
  rewrite Hnone. simpl. repeat split.
Qed.

(** C3, as the code has it.  [RemoveRecursive P] deletes nothing from
    the stored mapping when [P] has no entry, deletes the entry of [P]
    alone when that entry is not a directory, and, when it is a
    directory, deletes the entry of [P] and every entry whose key lies
    under [P] while keeping every entry whose key does not start with
    the string [P]. *)
Theorem RemoveRecursive_files (w : Watcher) (P : string) :
  fsAbs fs P = Ok P →
  (RemoveRecursive fs P w).2 = None
  ∧ (files w !! P = None → files (RemoveRecursive fs P w).1 = files w)
  ∧ (∀ i, files w !! P = Some i → IsDir i = false →
       files (RemoveRecursive fs P w).1 = delete P (files w))
  ∧ (∀ i, files w !! P = Some i → IsDir i = true →
       (∀ k, underPath P k → files (RemoveRecursive fs P w).1 !! k = None)
       ∧ (∀ k, HasPrefix k P = false →
            files (RemoveRecursive fs P w).1 !! k = files w !! k)).
Proof.
  intros Habs. unfold RemoveRecursive. rewrite Habs. simpl.
  split; [|split; [|split]].
  - destruct (files w !! P) as [i|]; [destruct (IsDir i)|]; done.
  - intros ->. done.
  - intros i -> ->. done.
  - intros i -> ->. simpl. split; intros k Hk.
    + apply map_lookup_filter_None. right. intros x _. simpl.
      rewrite (underPath_HasPrefix _ _ Hk). done.
    + destruct (files w !! k) as [x|] eqn:Hx.
      * apply map_lookup_filter_Some. done.
      * apply map_lookup_filter_None. by left.
Qed.
End Removal.

Lemma Remove_absent_witness :
  files watcherOfFile !! "/a/b" = None
  ∧ files (RemoveRecursive siblingsFS "/a/b" watcherOfFile).1
    = files watcherOfFile.
Proof.
  split; [reflexivity|].
  apply (Remove_absent siblingsFS watcherOfFile "/a/b"); reflexivity.
Defined.

(** C3 fails as it is stated: with no entry for [/a/b] itself, the entry
    of [/a/b/c], a key under [/a/b], survives [RemoveRecursive "/a/b"]. *)
Lemma RemoveRecursive_keeps_child :
  underPath "/a/b" "/a/b/c"
  ∧ files (RemoveRecursive siblingsFS "/a/b" watcherOfFile).1 !! "/a/b/c"
    = Some (info "c" 1 420 2).
Proof. split; [right|]; reflexivity. Qed.

(** The loop of [RemoveRecursive] tests [strings.HasPrefix] on the raw
    strings: removing the directory [/a/b] also deletes the sibling
    [/a/bc], which is not under [/a/b]. *)
Lemma RemoveRecursive_deletes_sibling :
  ¬ underPath "/a/b" "/a/bc"
  ∧ files watcherOfSiblings !! "/a/bc" = Some (info "bc" 1 420 3)
  ∧ files (RemoveRecursive siblingsFS "/a/b" watcherOfSiblings).1 !! "/a/bc"
    = None.
Proof.
  split; [|split]; [|reflexivity|vm_compute; reflexivity].
  intros [Heq | Hp]; [discriminate Heq | vm_compute in Hp; discriminate Hp].
Qed.

Lemma RemoveRecursive_files_witness :
  files watcherOfSiblings !! "/a/b" = Some (asDir (info "b" 1 493 1))
  ∧ files (RemoveRecursive siblingsFS "/a/b" watcherOfSiblings).1 !! "/a/b/c"
    = None.
Proof.
  split; [reflexivity|].
  destruct (RemoveRecursive_files siblingsFS watcherOfSiblings "/a/b" eq_refl)
    as (_ & _ & _ & Hd).
  apply (Hd (asDir (info "b" 1 493 1))); [reflexivity | reflexivity |].
  right. reflexivity.
Defined.

(** ** The operation filter *)

Lemma filter_loop {A : Type} (P : A → Prop) `{!∀ x, Decision (P x)}
    (res acc : list A) :
  fold_left (λ filteredRes event,
               if decide (P event) then (filteredRes ++ [event])%list
               else filteredRes) res acc
  = (acc ++ filter P res)%list.
Proof.
  revert acc. induction res as [|e res IH]; intros acc; simpl.
  - by rewrite app_nil_r.
  - rewrite IH. rewrite filter_cons. case_decide; [|done].
    by rewrite <- app_assoc.
Qed.

Lemma filterRes_nonempty (s : gset Op) (res : list Event) :
  s ≠ ∅ → filterRes (Some s) res = filter (λ e, EvOp e ∈ s) res.
Proof.
  intros Hs. unfold filterRes. rewrite decide_True.
  - by rewrite filter_loop.
  - assert (size s ≠ 0); [|lia]. rewrite size_non_empty_iff.
    intros Hs'. apply Hs. by apply leibniz_equiv.
Qed.

Lemma filterRes_empty (res : list Event) : filterRes (Some ∅) res = res.
Proof. unfold filterRes. rewrite decide_False; [done|]. rewrite size_empty. lia. Qed.

Lemma FilterOps_set (l : list Op) (acc : gset Op) (op : Op) :
  op ∈ fold_left (λ s op, {[op]} ∪ s) l acc ↔ op ∈ l ∨ op ∈ acc.
Proof.
  revert acc. induction l as [|x l IH]; intros acc; simpl.
  - rewrite elem_of_nil. tauto.
  - rewrite IH, elem_of_union, elem_of_singleton, elem_of_cons. tauto.
Qed.

Section Filter.
Context `{Platform}.
Variable o : Order.

(** C7.  With an operation filter whose set of kinds is not empty, the
    result of [getDiff] is the list of computed events restricted to the
    kinds of the set, each event as it was computed; with no filter, or
    an empty one, it is the list of computed events.  After
    [FilterOps l] the set is that of the kinds listed in [l]. *)
Theorem getDiff_filter (w : Watcher) (fileList : gmap string FileInfo) :
  (∀ s, ops w = Some s → s ≠ ∅ →
     getDiff o w fileList
     = filter (λ e, EvOp e ∈ s) (diffEvents o w fileList))
  ∧ (ops w = None ∨ ops w = Some ∅ →
     getDiff o w fileList = diffEvents o w fileList)
  ∧ (∀ l, l ≠ [] →
     getDiff o (FilterOps l w) fileList
     = filter (λ e, EvOp e ∈ l) (diffEvents o w fileList))
  ∧ getDiff o (FilterOps [] w) fileList = diffEvents o w fileList.
Proof.
  unfold getDiff. split; [|split; [|split]].
  - intros s -> Hs. by apply filterRes_nonempty.
  - intros [-> | ->]; [done | apply filterRes_empty].
  - intros l Hl.
    change (diffEvents o (FilterOps l w) fileList)
      with (diffEvents o w fileList).
    change (ops (FilterOps l w))
      with (Some (fold_left (λ s op, {[op]} ∪ s) l (∅ : gset Op))).
    rewrite filterRes_nonempty.
    + apply list_filter_iff. intros e. rewrite FilterOps_set.
      rewrite elem_of_empty. tauto.
    + destruct l as [|x l]; [done|]. intros Hempty.
      assert (Hin : x ∈ fold_left (λ s op, {[op]} ∪ s) (x :: l) (∅ : gset Op))
        by (apply FilterOps_set; left; left).
      rewrite Hempty in Hin. by apply elem_of_empty in Hin.
  - apply filterRes_empty.
Qed.
End Filter.

(** ** [Diff] and the stored state *)

Section DiffState.
Context `{Platform}.
Variable fs : FileSystem.
Variable o : Order.

Lemma retrieveFileList_watcher (w : Watcher) : (retrieveFileList fs o w).1 = w.
Proof. reflexivity. Qed.

(** Whatever [Diff] answers, it hands back the watcher it was given. *)
Lemma Diff_watcher (w : Watcher) : (Diff fs o w).1 = w.
Proof.
  unfold Diff, retrieveFileList.
  destruct (retrieveLoop fs w (rangeOf o LoopNames (names w)) ∅)
    as [[fileList|e]|]; reflexivity.
Qed.

(** C8.  A [Diff] that succeeds leaves the stored mapping, the
    registration set and the ignore set (the whole watcher) as they were;
    the events are those of [getDiff] on the stored mapping and the fresh
    listing, which is not stored. *)
Theorem Diff_success_frame (w : Watcher) (events : list Event) :
  (Diff fs o w).2 = Returns (Ok events) →
  files (Diff fs o w).1 = files w
  ∧ names (Diff fs o w).1 = names w
  ∧ ignored (Diff fs o w).1 = ignored w
  ∧ (Diff fs o w).1 = w
  ∧ ∃ fileList,
      (retrieveFileList fs o w).2 = Returns (Ok fileList)
      ∧ events = getDiff o w fileList.
Proof.
  intros Hok. rewrite Diff_watcher. repeat split.
  revert Hok. unfold Diff, retrieveFileList.
  destruct (retrieveLoop fs w (rangeOf o LoopNames (names w)) ∅)
    as [[fileList|e]|]; simpl; intros Hok; try discriminate Hok.
  exists fileList. split; [done|]. congruence.
Qed.
End DiffState.

Lemma Diff_success_frame_witness :
  (Diff treeFS mapOrder watcherOfTree).2 = Returns (Ok [])
  ∧ files (Diff treeFS mapOrder watcherOfTree).1 = files watcherOfTree.
Proof.
  split; [vm_compute; reflexivity|].
  apply (Diff_success_frame treeFS mapOrder watcherOfTree []).
  vm_compute; reflexivity.
Defined.

(** C1 on the code.  When the registered root has disappeared, [Diff]
    returns [ErrWatchedFileDeleted] and the root is still in the
    registration set (and its entry still in the stored mapping): the call
    that would deregister it stands after the [return]. *)
Theorem Diff_deleted_root_stays_registered :
  Stat (absFS []) "/gone" = Err (PathError "/gone" true)
  ∧ (Diff (absFS []) mapOrder (watcherOfGone false)).2
    = Returns (Err ErrWatchedFileDeleted)
  ∧ names (Diff (absFS []) mapOrder (watcherOfGone false)).1 !! "/gone"
    = Some false
  ∧ (Diff (absFS []) mapOrder (watcherOfGone true)).2
    = Returns (Err ErrWatchedFileDeleted)
  ∧ names (Diff (absFS []) mapOrder (watcherOfGone true)).1 !! "/gone"
    = Some true
  ∧ ∀ (o : Order) (b : bool),
      Diff (absFS []) o (watcherOfGone b)
      = (watcherOfGone b, Returns (Err ErrWatchedFileDeleted)).
Proof.
  repeat split; try (vm_compute; reflexivity).
  intros o b. unfold Diff, retrieveFileList, rangeOf.
  assert (Hkeys : enum o LoopNames (map_to_list (names (watcherOfGone b))).*1
                   = ["/gone"]).
  { apply Permutation_singleton_r.
    rewrite enum_perm. simpl. by rewrite map_to_list_singleton. }
  rewrite Hkeys. simpl.
  rewrite lookup_singleton_eq. simpl.
  destruct b; vm_compute; reflexivity.
Qed.

(** ** Ranging over a map *)

Section Range.
Context {A : Type}.
Variable o : Order.

Lemma omap_lookup_keys (m : gmap string A) (l : list (string * A)) :
  (∀ kv, kv ∈ l → m !! kv.1 = Some kv.2) →
  omap (λ k, pair k <$> m !! k) l.*1 = l.
Proof.
  induction l as [|[k v] l IH]; intros Hl; [done|].
  assert (Hk : m !! k = Some v) by (apply (Hl (k, v)); left).
  simpl. rewrite Hk. simpl. f_equal.
  apply IH. intros kv Hkv. apply Hl. by right.
Qed.

(** A [range] produces the entries of the map, each once. *)
Lemma rangeOf_perm (l : loop) (m : gmap string A) :
  rangeOf o l m ≡ₚ map_to_list m.
Proof.
  unfold rangeOf. rewrite enum_perm. rewrite omap_lookup_keys; [done|].
  intros [k v] Hkv. by apply elem_of_map_to_list.
Qed.

Lemma elem_of_rangeOf (l : loop) (m : gmap string A) (k : string) (v : A) :
  (k, v) ∈ rangeOf o l m ↔ m !! k = Some v.
Proof. rewrite rangeOf_perm. apply elem_of_map_to_list. Qed.

Lemma NoDup_rangeOf (l : loop) (m : gmap string A) :
  NoDup (rangeOf o l m).*1.
Proof. rewrite rangeOf_perm. apply NoDup_fst_map_to_list. Qed.

Lemma list_to_map_rangeOf (l : loop) (m : gmap string A) :
  list_to_map (rangeOf o l m) = m.
Proof.
  rewrite <- (list_to_map_to_list m) at 2.
  apply list_to_map_proper; [apply NoDup_rangeOf | apply rangeOf_perm].
Qed.
End Range.

(** A loop that copies into [acc] the entries passing a test on the key
    builds the filter of the map it ranges over. *)
Lemma copy_loop {A : Type} (P : string → Prop) `{!∀ k, Decision (P k)}
    (l : list (string * A)) (acc : gmap string A) :
  NoDup l.*1 →
  fold_left (λ acc kv, if decide (P kv.1) then <[kv.1 := kv.2]> acc else acc)
            l acc
  = filter (λ kv, P kv.1) (list_to_map l : gmap string A) ∪ acc.
Proof.
  revert acc. induction l as [|[k v] l IH]; intros acc Hnd; simpl.
  - by rewrite map_filter_empty, (left_id_L ∅ (∪)).
  - apply NoDup_cons in Hnd as [Hk Hnd].
    assert (Hnone : (list_to_map l : gmap string A) !! k = None)
      by (by apply not_elem_of_list_to_map_1).
    rewrite IH by done. case_decide as HP.
    + rewrite map_filter_insert_True by done.
      rewrite <- insert_union_l. rewrite insert_union_r; [done|].
      apply map_lookup_filter_None. by left.
    + rewrite map_filter_insert_not'; [done | done |].
      intros y. by rewrite Hnone.
Qed.

(** ** The loops of [getDiff] *)

Section DiffLoops.
Context `{Platform}.
Variable o : Order.
Variable w : Watcher.
Variable fileList : gmap string FileInfo.

(** The removed candidates: the stored entries whose key is not in the
    fresh listing. *)
Lemma removed_spec :
  removed o w fileList = filter (λ kv, fileList !! kv.1 = None) (files w).
Proof.
  unfold removed.
  pose proof (copy_loop (λ k, fileList !! k = None)
                (rangeOf o LoopStored (files w)) ∅
                (NoDup_rangeOf o LoopStored (files w))) as Hcopy.
  rewrite list_to_map_rangeOf, (right_id_L ∅ (∪)) in Hcopy.
  rewrite <- Hcopy. clear Hcopy.
  generalize (∅ : gmap string FileInfo).
  induction (rangeOf o LoopStored (files w)) as [|kv l IH]; intros acc;
    [done|].
  simpl. rewrite IH. f_equal.
  destruct (fileList !! kv.1); [by rewrite decide_False | by rewrite decide_True].
Qed.

Lemma removed_lookup (k : string) (v : FileInfo) :
  removed o w fileList !! k = Some v
  ↔ files w !! k = Some v ∧ fileList !! k = None.
Proof. rewrite removed_spec. apply map_lookup_filter_Some. Qed.

Lemma changed_loop (l : list (string * FileInfo))
    (creates : gmap string FileInfo) (res : list Event) :
  NoDup l.*1 →
  fold_left (changedStep w) l (creates, res)
  = (filter (λ kv, files w !! kv.1 = None)
            (list_to_map l : gmap string FileInfo) ∪ creates,
     (res ++ flat_map (inPlace w) l)%list).
Proof.
  revert creates res. induction l as [|[k v] l IH]; intros creates res Hnd.
  - simpl. by rewrite map_filter_empty, (left_id_L ∅ (∪)), app_nil_r.
  - apply NoDup_cons in Hnd as [Hk Hnd].
    assert (Hnone : (list_to_map l : gmap string FileInfo) !! k = None)
      by (by apply not_elem_of_list_to_map_1).
    cbn [fold_left flat_map]. unfold inPlace at 1.
    replace (changedStep w (creates, res) (k, v))
      with (match files w !! k with
            | None => (<[k := v]> creates, res)
            | Some oldInfo =>
                (creates,
                 res ++ (if decide (ModTime oldInfo ≠ ModTime v)
                         then [mkEvent Write k k v] else [])
                     ++ (if decide (Mode oldInfo ≠ Mode v)
                         then [mkEvent Chmod k k v] else []))%list
            end).
    2:{ unfold changedStep. destruct (files w !! k); [|done].
        repeat case_decide; by rewrite <- ?app_assoc, ?app_nil_r. }
    cbn [fst snd]. rewrite list_to_map_cons.
    destruct (files w !! k) as [oldInfo|] eqn:Hold.
    + rewrite IH by done. f_equal.
      * rewrite map_filter_insert_not'; [done | simpl; congruence |].
        intros y. by rewrite Hnone.
      * by rewrite <- !app_assoc.
    + rewrite IH by done. f_equal.
      rewrite map_filter_insert_True by done.
      rewrite <- insert_union_l. rewrite insert_union_r; [done|].
      apply map_lookup_filter_None. by left.
Qed.

(** The created candidates are the fresh entries whose key is not
    stored; the events so far are the Write and Chmod events of the
    fresh entries, in the order of the loop. *)
Lemma changed_spec :
  changed o w fileList
  = (filter (λ kv, files w !! kv.1 = None) fileList,
     flat_map (inPlace w) (rangeOf o LoopFresh fileList)).
Proof.
  unfold changed. rewrite changed_loop by apply NoDup_rangeOf.
  by rewrite list_to_map_rangeOf, (right_id_L ∅ (∪)).
Qed.
End DiffLoops.

(** ** The rename and move loop *)

Lemma count_key {A : Type} (l : list (string * A)) (k : string) :
  NoDup l.*1 →
  length (filter (λ kv, kv.1 = k) l) = if decide (k ∈ l.*1) then 1 else 0.
Proof.
  induction l as [|[k' v] l IH]; intros Hnd.
  - destruct (decide (k ∈ ([] : list (string * A)).*1)) as [Hin|_]; [|done].
    by apply elem_of_nil in Hin.
  - rewrite fmap_cons in Hnd. apply NoDup_cons in Hnd as [Hk Hnd].
    rewrite filter_cons, fmap_cons. cbn [fst].
    specialize (IH Hnd).
    destruct (decide (k' = k)) as [->|Hne].
    + cbn [length]. rewrite IH.
      destruct (decide (k ∈ l.*1)) as [Hin|_]; [done|].
      destruct (decide (k ∈ k :: l.*1)) as [_|Hnin]; [done|].
      exfalso. apply Hnin. left.
    + rewrite IH.
      destruct (decide (k ∈ l.*1)) as [Hin|Hnin];
        destruct (decide (k ∈ k' :: l.*1)) as [Hin'|Hnin']; try done.
      * exfalso. apply Hnin'. by right.
      * exfalso. apply elem_of_cons in Hin' as [?|?]; congruence.
Qed.

Lemma deleteAll_lookup {A : Type} (l : list (string * A)) (m : gmap string A)
    (k : string) :
  deleteAll l m !! k = if decide (k ∈ l.*1) then None else m !! k.
Proof.
  revert m. induction l as [|[k' v] l IH]; intros m.
  - destruct (decide (k ∈ ([] : list (string * A)).*1)) as [Hin|_]; [|done].
    by apply elem_of_nil in Hin.
  - unfold deleteAll in *. cbn [fold_left fst]. rewrite IH, fmap_cons.
    cbn [fst].
    destruct (decide (k ∈ l.*1)) as [Hin|Hnin];
      destruct (decide (k ∈ k' :: l.*1)) as [Hin'|Hnin']; try done.
    + exfalso. apply Hnin'. by right.
    + apply elem_of_cons in Hin' as [->|?]; [|done]. apply lookup_delete_eq.
    + apply lookup_delete_ne. intros ->. apply Hnin'. left.
Qed.

Section Correlate.
Context `{Platform}.
Variable o : Order.

(** The inner loop in closed form: one event for every hit, every hit
    deleted from [creates], and [path1] deleted from [removes] as soon as
    there is a hit. *)
Lemma corrInner_loop (path1 : string) (info1 : FileInfo)
    (l : list (string * FileInfo)) (removes creates : gmap string FileInfo)
    (res : list Event) :
  fold_left (corrInner path1 info1) l (removes, creates, res)
  = (if decide (hits info1 l = []) then removes else delete path1 removes,
     deleteAll (hits info1 l) creates,
     (res ++ (evOf path1 info1 <$> hits info1 l))%list).
Proof.
  revert removes creates res.
  induction l as [|[k v] l IH]; intros removes creates res.
  - simpl. by rewrite app_nil_r.
  - cbn [fold_left]. unfold corrInner at 2, hits. rewrite filter_cons.
    cbn [fst snd].
    destruct (sameFile info1 v) eqn:Hsame.
    + destruct (decide (true = true)) as [_|Hn]; [|done].
      rewrite IH. fold (hits info1 l).
      destruct (decide ((k, v) :: hits info1 l = [])) as [Hnil|_]; [done|].
      f_equal; [f_equal|].
      * destruct (decide (hits info1 l = [])); [done | apply delete_delete_eq].
      * rewrite fmap_cons. by rewrite <- app_assoc.
    + destruct (decide (false = true)) as [Hn|_]; [done|]. apply IH.
Qed.

Lemma elem_of_hits (info1 : FileInfo) (l : loop)
    (creates : gmap string FileInfo) (k : string) (v : FileInfo) :
  (k, v) ∈ hits info1 (rangeOf o l creates)
  ↔ creates !! k = Some v ∧ sameFile info1 v = true.
Proof.
  unfold hits. rewrite list_elem_of_filter, elem_of_rangeOf. simpl. tauto.
Qed.

Lemma NoDup_hits (info1 : FileInfo) (l : loop)
    (creates : gmap string FileInfo) :
  NoDup (hits info1 (rangeOf o l creates)).*1.
Proof.
  eapply sublist_NoDup;
    [apply (NoDup_rangeOf o l creates)
    |unfold hits; apply fmap_sublist, sublist_filter].
Qed.

Lemma count_evOf (path1 : string) (info1 : FileInfo)
    (l : list (string * FileInfo)) (p2 : string) :
  length (filter (λ e, Path e = p2) (evOf path1 info1 <$> l))
  = length (filter (λ kv, kv.1 = p2) l).
Proof.
  induction l as [|kv l IH]; [done|].
  rewrite fmap_cons, !filter_cons. simpl.
  destruct (decide (kv.1 = p2)); simpl; by rewrite IH.
Qed.
End Correlate.

Section CorrelateInvariant.
Context `{Platform}.
Variable o : Order.
Variables removes0 creates0 : gmap string FileInfo.

Lemma corrInv_start (l : loop) :
  corrInv removes0 creates0 (rangeOf o l removes0) removes0 creates0 [].
Proof.
  split.
  - intros k v. by rewrite elem_of_rangeOf.
  - done.
  - done.
  - intros e He. by apply elem_of_nil in He.
  - intros e He. by apply elem_of_nil in He.
  - intros p2. done.
  - intros p1 i1 Hp1 Hnin. exfalso. apply Hnin.
    apply list_elem_of_fmap. exists (p1, i1). split; [done|].
    by apply elem_of_rangeOf.
Qed.

(** One round of the outer loop keeps the invariant. *)
Lemma corrInv_step (path1 : string) (info1 : FileInfo)
    (todo : list (string * FileInfo)) (removes creates : gmap string FileInfo)
    (evs : list Event) :
  path1 ∉ todo.*1 →
  corrInv removes0 creates0 ((path1, info1) :: todo) removes creates evs →
  let hs := hits info1 (rangeOf o (LoopCreates path1) creates) in
  corrInv removes0 creates0 todo
    (if decide (hs = []) then removes else delete path1 removes)
    (deleteAll hs creates)
    (evs ++ (evOf path1 info1 <$> hs)).
Proof.
  intros Hfresh [Htodo Hrem Hcre Hev Hcons Hcount Hdone] hs.
  assert (Hinfo1 : removes0 !! path1 = Some info1) by (apply Htodo; left).
  assert (Hsub : ∀ k v,
    (if decide (hs = []) then removes else delete path1 removes) !! k = Some v
    → removes !! k = Some v).
  { intros k v. destruct (decide (hs = [])); [done|].
    rewrite lookup_delete_Some. tauto. }
  assert (Hsubc : ∀ k v, deleteAll hs creates !! k = Some v
                         → creates !! k = Some v ∧ sameFile info1 v = false).
  { intros k v. rewrite deleteAll_lookup.
    destruct (decide (k ∈ hs.*1)) as [|Hnin]; [done|]. intros Hk.
    split; [done|]. destruct (sameFile info1 v) eqn:Hs; [|done].
    exfalso. apply Hnin. apply list_elem_of_fmap. exists (k, v).
    split; [done|]. by apply elem_of_hits. }
  split.
  - intros k v Hkv. apply Htodo. by right.
  - intros k v Hk. by apply Hrem, Hsub.
  - intros k v Hk. by apply Hcre, Hsubc.
  - intros e [He | He]%elem_of_app; [by apply Hev|].
    apply list_elem_of_fmap in He as [[p2 i2] [-> Hin]].
    apply elem_of_hits in Hin as [Hp2 Hs].
    exists path1, info1, p2, i2. eauto.
  - intros e [He | He]%elem_of_app.
    + specialize (Hcons e He).
      destruct (decide (hs = [])); [done|].
      apply lookup_delete_None. by right.
    + destruct (decide (hs = [])) as [Hnil|_].
      * rewrite Hnil in He. by apply elem_of_nil in He.
      * apply list_elem_of_fmap in He as [kv [-> _]]. simpl.
        apply lookup_delete_eq.
  - intros p2. rewrite filter_app, length_app, count_evOf.
    rewrite count_key by apply NoDup_hits.
    specialize (Hcount p2). unfold present in *.
    rewrite deleteAll_lookup.
    destruct (decide (p2 ∈ hs.*1)) as [Hin|Hnin]; [|lia].
    apply list_elem_of_fmap in Hin as [[k v] [Hk Hin]]. simpl in Hk. subst k.
    apply elem_of_hits in Hin as [Hp2 _]. rewrite Hp2 in Hcount. lia.
  - intros p1 i1 Hp1 Hnin p2 i2 Hp2.
    apply Hsubc in Hp2 as [Hp2 Hs].
    destruct (decide (p1 = path1)) as [->|Hne].
    + congruence.
    + apply (Hdone p1 i1 Hp1) with p2; [|done].
      intros [?|?]%elem_of_cons; [done|contradiction].
Qed.

(** The outer loop, from any round to its end. *)
Lemma corrOuter_loop (todo : list (string * FileInfo))
    (removes creates : gmap string FileInfo) (res0 evs : list Event) :
  NoDup todo.*1 →
  corrInv removes0 creates0 todo removes creates evs →
  ∃ removes' creates' evs',
    fold_left (corrOuter o) todo (removes, creates, (res0 ++ evs)%list)
    = (removes', creates', (res0 ++ evs')%list)
    ∧ corrInv removes0 creates0 [] removes' creates' evs'.
Proof.
  revert removes creates evs.
  induction todo as [|[path1 info1] todo IH]; intros removes creates evs Hnd Hinv.
  - exists removes, creates, evs. done.
  - rewrite fmap_cons in Hnd. apply NoDup_cons in Hnd as [Hfresh Hnd].
    cbn [fold_left]. unfold corrOuter at 2. cbn [fst snd].
    rewrite corrInner_loop, <- app_assoc.
    apply IH; [done|]. by apply corrInv_step.
Qed.

(** The whole loop: what it leaves satisfies the invariant with nothing
    left to do. *)
Lemma correlate_spec (res0 : list Event) :
  ∃ removes creates evs,
    correlate o removes0 creates0 res0 = (removes, creates, (res0 ++ evs)%list)
    ∧ corrInv removes0 creates0 [] removes creates evs.
Proof.
  pose proof (corrOuter_loop (rangeOf o LoopRemoves removes0)
                removes0 creates0 res0 []
                (NoDup_rangeOf o LoopRemoves removes0)
                (corrInv_start LoopRemoves)) as Hloop.
  by rewrite app_nil_r in Hloop.
Qed.
End CorrelateInvariant.

(** ** The events of a diff *)

Lemma append_loop {A B : Type} (f : A → B) (l : list A) (res : list B) :
  fold_left (λ res kv, res ++ [f kv])%list l res = (res ++ (f <$> l))%list.
Proof.
  revert res. induction l as [|x l IH]; intros res; simpl.
  - by rewrite app_nil_r.
  - rewrite IH. by rewrite <- app_assoc.
Qed.

Lemma elem_of_filterRes (wops : option (gset Op)) (res : list Event) (e : Event) :
  e ∈ filterRes wops res → e ∈ res.
Proof.
  unfold filterRes. destruct wops as [s|]; [|done].
  destruct (decide (0 < size s)); [|done].
  rewrite filter_loop. simpl. rewrite list_elem_of_filter. tauto.
Qed.

Section Events.
Context `{Platform}.
Variable o : Order.
Variable w : Watcher.
Variable fileList : gmap string FileInfo.

Lemma created_lookup (k : string) (v : FileInfo) :
  (changed o w fileList).1 !! k = Some v
  ↔ fileList !! k = Some v ∧ files w !! k = None.
Proof. rewrite changed_spec. apply map_lookup_filter_Some. Qed.

(** [diffEvents] is the in-place events, then the events of the rename
    and move loop, then a Create for what is left of [creates] and a
    Remove for what is left of [removes]. *)
Lemma diffEvents_spec :
  ∃ removes creates evs,
    diffEvents o w fileList
    = (flat_map (inPlace w) (rangeOf o LoopFresh fileList)
       ++ evs
       ++ (createOf <$> rangeOf o LoopRestCreates creates)
       ++ (removeOf <$> rangeOf o LoopRestRemoves removes))%list
    ∧ corrInv (removed o w fileList) (changed o w fileList).1 []
              removes creates evs.
Proof.
  unfold diffEvents.
  destruct (changed o w fileList) as [creates0 res0] eqn:Hch.
  assert (Hres0 : res0 = flat_map (inPlace w) (rangeOf o LoopFresh fileList)).
  { rewrite changed_spec in Hch. congruence. }
  destruct (correlate_spec o (removed o w fileList) creates0 res0)
    as (removes & creates & evs & Hcorr & Hinv).
  rewrite Hcorr. exists removes, creates, evs. split; [|done].
  rewrite (append_loop createOf), (append_loop removeOf).
  rewrite Hres0. by rewrite <- !app_assoc.
Qed.

Lemma inPlace_sound (kv : string * FileInfo) (e : Event) :
  fileList !! kv.1 = Some kv.2 → e ∈ inPlace w kv → eventOf w fileList e.
Proof.
  intros Hnew. unfold inPlace.
  destruct (files w !! kv.1) as [old|] eqn:Hold.
  - intros [He | He]%elem_of_app.
    + destruct (decide (ModTime old ≠ ModTime kv.2)) as [Hne|];
        [|by apply elem_of_nil in He].
      apply list_elem_of_singleton in He as ->. by eapply ev_write.
    + destruct (decide (Mode old ≠ Mode kv.2)) as [Hne|];
        [|by apply elem_of_nil in He].
      apply list_elem_of_singleton in He as ->. by eapply ev_chmod.
  - intros He. by apply elem_of_nil in He.
Qed.

Lemma diffEvents_sound (e : Event) :
  e ∈ diffEvents o w fileList → eventOf w fileList e.
Proof.
  destruct diffEvents_spec as (removes & creates & evs & -> & Hinv).
  destruct Hinv as [_ Hrem Hcre Hev _ _ _].
  rewrite !elem_of_app. intros [He | [He | [He | He]]].
  - apply list_elem_of_In, in_flat_map in He as [[k v] [Hkv He]].
    apply list_elem_of_In in Hkv, He.
    apply elem_of_rangeOf in Hkv. by apply (inPlace_sound (k, v)).
  - apply Hev in He as (p1 & i1 & p2 & i2 & -> & Hp1 & Hp2 & Hs).
    apply removed_lookup in Hp1 as [? ?].
    apply created_lookup in Hp2 as [? ?]. by apply ev_pair.
  - apply list_elem_of_fmap in He as [[k v] [-> Hkv]].
    apply elem_of_rangeOf in Hkv.
    apply Hcre in Hkv.
    apply created_lookup in Hkv as [? ?]. by apply ev_create.
  - apply list_elem_of_fmap in He as [[k v] [-> Hkv]].
    apply elem_of_rangeOf in Hkv.
    apply Hrem in Hkv.
    apply removed_lookup in Hkv as [? ?]. by apply ev_remove.
Qed.

Lemma getDiff_sound (e : Event) : e ∈ getDiff o w fileList → eventOf w fileList e.
Proof. intros He. by apply diffEvents_sound, (elem_of_filterRes (ops w)). Qed.

(** C5, as the code has it.  In every event of a diff: a Create has an
    empty [OldPath] and the new metadata; a Write or a Chmod has its own
    path as [OldPath] and the new metadata; a Remove has its own path as
    [OldPath] and the stored (pre-removal) metadata; a Rename or a Move
    has the removed path as [OldPath], a created path as [Path] and the
    stored metadata of the removed path. *)
Theorem getDiff_event_fields (e : Event) :
  e ∈ getDiff o w fileList →
  (EvOp e = Create →
     OldPath e = "" ∧ fileList !! Path e = Some (Info e))
  ∧ (EvOp e = Write ∨ EvOp e = Chmod →
     OldPath e = Path e ∧ fileList !! Path e = Some (Info e))
  ∧ (EvOp e = Remove →
     OldPath e = Path e ∧ files w !! Path e = Some (Info e)
     ∧ fileList !! Path e = None)
  ∧ (EvOp e = Rename ∨ EvOp e = Move →
     files w !! OldPath e = Some (Info e) ∧ fileList !! OldPath e = None
     ∧ files w !! Path e = None ∧ is_Some (fileList !! Path e)).
Proof.
  intros He. apply getDiff_sound in He.
  destruct He as [p old new|p old new|p1 i1 p2 i2|p i|p i];
    unfold evOf, createOf, removeOf; cbn [EvOp Path OldPath Info fst snd].
  3: destruct (decide (Dir p1 = Dir p2)).
  all: split; [|split; [|split]].
  all: try (intros [Hop|Hop]; discriminate Hop).
  all: try (intros Hop; discriminate Hop).
  all: intros _; repeat split; try done; by eexists.
Qed.
End Events.

Example getDiff_touchedA :
  getDiff mapOrder watcherOfA touchedA
  = [mkEvent Write "/d/a" "/d/a" (info "a" 2 493 10);
     mkEvent Chmod "/d/a" "/d/a" (info "a" 2 493 10)].
Proof. vm_compute. reflexivity. Qed.

(** C5 fails as it is stated: the Write event of a touched file carries
    the file's path as [OldPath], which is not empty, and is neither a
    Rename nor a Move. *)
Lemma getDiff_write_has_old_path :
  ¬ (∀ e, e ∈ getDiff mapOrder watcherOfA touchedA →
          OldPath e ≠ "" → EvOp e = Rename ∨ EvOp e = Move).
Proof.
  intros Hclaim.
  destruct (Hclaim (mkEvent Write "/d/a" "/d/a" (info "a" 2 493 10)))
    as [Hop|Hop]; try discriminate.
  rewrite getDiff_touchedA. left.
Qed.

Lemma getDiff_event_fields_witness :
  mkEvent Write "/d/a" "/d/a" (info "a" 2 493 10)
    ∈ getDiff mapOrder watcherOfA touchedA
  ∧ (Write = Write ∨ Write = Chmod →
     "/d/a" = "/d/a" ∧ touchedA !! "/d/a" = Some (info "a" 2 493 10)).
Proof.
  assert (Hin : mkEvent Write "/d/a" "/d/a" (info "a" 2 493 10)
                  ∈ getDiff mapOrder watcherOfA touchedA)
    by (rewrite getDiff_touchedA; left).
  split; [exact Hin|].
  exact (proj1 (proj2 (getDiff_event_fields mapOrder watcherOfA touchedA _ Hin))).
Defined.

(** ** Lists of events *)

Section ListFacts.
Context {A : Type} (P Q : A → Prop).
Context `{!∀ x, Decision (P x), !∀ x, Decision (Q x)}.

Lemma filter_none (l : list A) :
  (∀ x, x ∈ l → ¬ P x) → filter P l = [].
Proof.
  induction l as [|a l IH]; intros Hl; [done|].
  rewrite filter_cons_False by (apply Hl; left).
  apply IH. intros x Hx. apply Hl. by right.
Qed.

Lemma filter_ext_in (l : list A) :
  (∀ x, x ∈ l → (P x ↔ Q x)) → filter P l = filter Q l.
Proof.
  induction l as [|a l IH]; intros Hl; [done|].
  assert (Ha : P a ↔ Q a) by (apply Hl; left).
  assert (Hrest : filter P l = filter Q l).
  { apply IH. intros x Hx. apply Hl. by right. }
  rewrite !filter_cons, Hrest.
  destruct (decide (P a)), (decide (Q a)); tauto.
Qed.

Lemma length_filter_le (l : list A) :
  (∀ x, x ∈ l → P x → Q x) →
  (length (filter P l) ≤ length (filter Q l))%nat.
Proof.
  induction l as [|a l IH]; intros Hl; [done|].
  assert (Ha : P a → Q a) by (apply Hl; left).
  assert (Hrest : (length (filter P l) ≤ length (filter Q l))%nat).
  { apply IH. intros x Hx. apply Hl. by right. }
  rewrite !filter_cons.
  destruct (decide (P a)), (decide (Q a)); simpl; try lia. tauto.
Qed.

Lemma one_element (l : list A) (a : A) :
  length l = 1 → (∀ x, x ∈ l → x = a) → l = [a].
Proof.
  destruct l as [|x [|y l]]; try done. intros _ Hl.
  f_equal. apply Hl. left.
Qed.
End ListFacts.

Lemma elem_of_filterRes_iff (wops : option (gset Op)) (res : list Event)
    (e : Event) :
  e ∈ filterRes wops res ↔ e ∈ res ∧ keeps wops (EvOp e).
Proof.
  unfold filterRes, keeps. destruct wops as [s|]; [|tauto].
  destruct (decide (0 < size s)).
  - rewrite filter_loop. simpl. rewrite list_elem_of_filter.
    split; [tauto|]. intros [? [?|?]]; [lia | tauto].
  - split; [|tauto]. intros ?. split; [done|]. left. lia.
Qed.

(** ** Write and Chmod *)

Section InPlace.
Context `{Platform}.
Variable o : Order.
Variable w : Watcher.
Variable fileList : gmap string FileInfo.

Lemma inPlace_complete (p : string) (new : FileInfo) (e : Event) :
  fileList !! p = Some new → e ∈ inPlace w (p, new) →
  e ∈ diffEvents o w fileList.
Proof.
  intros Hnew He.
  destruct (diffEvents_spec o w fileList) as (removes & creates & evs & -> & _).
  apply elem_of_app. left.
  apply list_elem_of_In, in_flat_map. exists (p, new).
  split; apply list_elem_of_In; [by apply elem_of_rangeOf | done].
Qed.

(** C6.  For a path in both mappings, the events [getDiff] computes hold
    a Write for the path exactly when the modification times differ and a
    Chmod exactly when the modes differ, each test on its own; a path
    with the same time and the same mode has no event at all.  The same
    holds of the result of [getDiff] for every kind the operation filter
    keeps. *)
Theorem getDiff_write_chmod (p : string) (old new : FileInfo) :
  files w !! p = Some old →
  fileList !! p = Some new →
  ((∃ e, e ∈ diffEvents o w fileList ∧ EvOp e = Write ∧ Path e = p)
     ↔ ModTime old ≠ ModTime new)
  ∧ ((∃ e, e ∈ diffEvents o w fileList ∧ EvOp e = Chmod ∧ Path e = p)
     ↔ Mode old ≠ Mode new)
  ∧ (ModTime old = ModTime new → Mode old = Mode new →
     ∀ e, e ∈ diffEvents o w fileList → Path e ≠ p)
  ∧ (keeps (ops w) Write →
     ((∃ e, e ∈ getDiff o w fileList ∧ EvOp e = Write ∧ Path e = p)
        ↔ ModTime old ≠ ModTime new))
  ∧ (keeps (ops w) Chmod →
     ((∃ e, e ∈ getDiff o w fileList ∧ EvOp e = Chmod ∧ Path e = p)
        ↔ Mode old ≠ Mode new)).
Proof.
  intros Hold Hnew.
  assert (Hw : (∃ e, e ∈ diffEvents o w fileList ∧ EvOp e = Write ∧ Path e = p)
               ↔ ModTime old ≠ ModTime new).
  { split.
    - intros (e & He & Hop & Hp). apply diffEvents_sound in He.
      destruct He as [q old' new' Ho Hn Hne| | | |];
        unfold evOf, createOf, removeOf in *; simpl in *;
        try discriminate; [|by case_decide].
      subst q. congruence.
    - intros Hne. exists (mkEvent Write p p new). split; [|done].
      apply (inPlace_complete p new); [done|].
      unfold inPlace. simpl. rewrite Hold. apply elem_of_app. left.
      rewrite decide_True by done. left. }
  assert (Hc : (∃ e, e ∈ diffEvents o w fileList ∧ EvOp e = Chmod ∧ Path e = p)
               ↔ Mode old ≠ Mode new).
  { split.
    - intros (e & He & Hop & Hp). apply diffEvents_sound in He.
      destruct He as [|q old' new' Ho Hn Hne| | |];
        unfold evOf, createOf, removeOf in *; simpl in *;
        try discriminate; [|by case_decide].
      subst q. congruence.
    - intros Hne. exists (mkEvent Chmod p p new). split; [|done].
      apply (inPlace_complete p new); [done|].
      unfold inPlace. simpl. rewrite Hold. apply elem_of_app. right.
      rewrite decide_True by done. left. }
  split; [exact Hw|]. split; [exact Hc|]. split; [|split].
  - intros Ht Hm e He Hp. apply diffEvents_sound in He.
    destruct He as [q old' new'|q old' new'|p1 i1 p2 i2|q i|q i];
      unfold evOf, createOf, removeOf in *; simpl in *; subst; congruence.
  - intros Hk. rewrite <- Hw. unfold getDiff.
    split; intros (e & He & Hop & Hp); exists e; (split; [|done]).
    + by apply elem_of_filterRes_iff in He as [He _].
    + apply elem_of_filterRes_iff. split; [done | by rewrite Hop].
  - intros Hk. rewrite <- Hc. unfold getDiff.
    split; intros (e & He & Hop & Hp); exists e; (split; [|done]).
    + by apply elem_of_filterRes_iff in He as [He _].
    + apply elem_of_filterRes_iff. split; [done | by rewrite Hop].
Qed.
End InPlace.

Lemma getDiff_write_chmod_witness :
  files watcherOfA !! "/d/a" = Some (info "a" 1 420 10)
  ∧ touchedA !! "/d/a" = Some (info "a" 2 493 10)
  ∧ ((∃ e, e ∈ diffEvents mapOrder watcherOfA touchedA
           ∧ EvOp e = Write ∧ Path e = "/d/a")
     ↔ ModTime (info "a" 1 420 10) ≠ ModTime (info "a" 2 493 10)).
Proof.
  split; [reflexivity|]. split; [reflexivity|].
  apply (getDiff_write_chmod mapOrder watcherOfA touchedA "/d/a"
           (info "a" 1 420 10) (info "a" 2 493 10)); reflexivity.
Defined.

(** ** Rename and Move *)

Lemma filterRes_filter (P : Event → Prop) `{!∀ e, Decision (P e)}
    (wops : option (gset Op)) (res : list Event) :
  filter P (filterRes wops res) = filterRes wops (filter P res).
Proof.
  unfold filterRes. destruct wops as [s|]; [|done].
  destruct (decide (0 < size s)); [|done].
  rewrite !filter_loop. simpl. rewrite !list_filter_filter.
  apply list_filter_iff. intros e. tauto.
Qed.

Section Pairing.
Context `{Platform}.
Variable o : Order.
Variable w : Watcher.
Variable fileList : gmap string FileInfo.

Lemma inPlace_shape (l : loop) (e : Event) :
  e ∈ flat_map (inPlace w) (rangeOf o l fileList) →
  ∃ k v old, fileList !! k = Some v ∧ files w !! k = Some old
             ∧ (e = mkEvent Write k k v ∨ e = mkEvent Chmod k k v).
Proof.
  intros He. apply list_elem_of_In, in_flat_map in He as [[k v] [Hkv He]].
  apply list_elem_of_In in Hkv, He. apply elem_of_rangeOf in Hkv.
  unfold inPlace in He. simpl in He.
  destruct (files w !! k) as [old|] eqn:Hold; [|by apply elem_of_nil in He].
  exists k, v, old. split; [done|]. split; [done|].
  apply elem_of_app in He as [He|He]; case_decide;
    try (by apply elem_of_nil in He);
    apply list_elem_of_singleton in He; tauto.
Qed.

(** A created path is the [Path] of at most one Rename or Move. *)
Lemma created_paired_once (c' : string) :
  (length (filter (λ e, isPair e ∧ Path e = c') (diffEvents o w fileList))
   ≤ 1)%nat.
Proof.
  destruct (diffEvents_spec o w fileList)
    as (removes & creates & evs & -> & [_ _ _ _ _ Hcount _]).
  rewrite !filter_app, !length_app.
  rewrite (filter_none _ (flat_map _ _)), (filter_none _ (createOf <$> _)),
          (filter_none _ (removeOf <$> _)).
  - simpl. specialize (Hcount c'). unfold present in Hcount.
    assert (length (filter (λ e, isPair e ∧ Path e = c') evs)
            ≤ length (filter (λ e, Path e = c') evs))%nat
      by (apply length_filter_le; tauto).
    destruct (creates !! c'), ((changed o w fileList).1 !! c'); lia.
  - intros e [kv [-> _]]%list_elem_of_fmap [[Hop|Hop] _]; discriminate Hop.
  - intros e [kv [-> _]]%list_elem_of_fmap [[Hop|Hop] _]; discriminate Hop.
  - intros e (k & v & old & _ & _ & [-> | ->])%inPlace_shape [[Hop|Hop] _];
      discriminate Hop.
Qed.

(** A removed path all of whose matches are one created path is the
    [OldPath] of at most one Rename or Move. *)
Lemma removed_paired_once (r' : string) (ir' : FileInfo) :
  files w !! r' = Some ir' →
  (∀ c1 i1 c2 i2,
     fileList !! c1 = Some i1 → files w !! c1 = None →
     sameFile ir' i1 = true →
     fileList !! c2 = Some i2 → files w !! c2 = None →
     sameFile ir' i2 = true → c1 = c2) →
  (length (filter (λ e, isPair e ∧ OldPath e = r') (diffEvents o w fileList))
   ≤ 1)%nat.
Proof.
  intros Hr' Hone.
  destruct (diffEvents_spec o w fileList)
    as (removes & creates & evs & -> & [_ _ _ Hev _ Hcount _]).
  rewrite !filter_app, !length_app.
  rewrite (filter_none _ (flat_map _ _)), (filter_none _ (createOf <$> _)),
          (filter_none _ (removeOf <$> _)).
  - simpl. rewrite !Nat.add_0_r.
    destruct (filter (λ e, isPair e ∧ OldPath e = r') evs) as [|e0 rest] eqn:Hf;
      [simpl; lia|].
    rewrite <- Hf.
    assert (He0 : e0 ∈ filter (λ e, isPair e ∧ OldPath e = r') evs)
      by (rewrite Hf; left).
    apply list_elem_of_filter in He0 as [[_ Hold0] He0].
    destruct (Hev e0 He0) as (p1 & i1 & p2 & i2 & -> & Hp1 & Hp2 & Hs).
    simpl in Hold0. subst p1.
    apply removed_lookup in Hp1 as [Hp1 _].
    apply created_lookup in Hp2 as [Hp2 Hp2'].
    assert (i1 = ir') by congruence. subst i1.
    transitivity (length (filter (λ e, Path e = p2) evs)).
    + apply length_filter_le. intros e He [_ Hold].
      destruct (Hev e He) as (q1 & j1 & q2 & j2 & -> & Hq1 & Hq2 & Hs').
      simpl in Hold. subst q1. simpl.
      apply removed_lookup in Hq1 as [Hq1 _].
      apply created_lookup in Hq2 as [Hq2 Hq2'].
      assert (j1 = ir') by congruence. subst j1.
      by apply (Hone q2 j2 p2 i2).
    + specialize (Hcount p2). unfold present in Hcount.
      destruct (creates !! p2), ((changed o w fileList).1 !! p2); lia.
  - intros e [kv [-> _]]%list_elem_of_fmap [[Hop|Hop] _]; discriminate Hop.
  - intros e [kv [-> _]]%list_elem_of_fmap [[Hop|Hop] _]; discriminate Hop.
  - intros e (k & v & old & _ & _ & [-> | ->])%inPlace_shape [[Hop|Hop] _];
      discriminate Hop.
Qed.
End Pairing.

Section RenameMove.
Context `{Platform}.
Variable o : Order.
Variable w : Watcher.
Variable fileList : gmap string FileInfo.

Lemma evPaths_evOf (p1 : string) (i1 : FileInfo) (kv : string * FileInfo) :
  evPaths (evOf p1 i1 kv) = [kv.1; p1].
Proof. unfold evPaths, evOf. simpl. by case_decide. Qed.

(** C2.  Let the removed candidate [r] and the created candidate [c] be
    the same file, [c] the only created candidate that is the same file
    as [r] and [r] the only removed candidate that is the same file as
    [c].  Then, of the events [getDiff] computes, exactly one speaks of
    [r] or [c]: the Rename (same parent directory) or Move (otherwise)
    from [r] to [c], with the stored metadata of [r]; there is no Create
    for [c] and no Remove for [r].  The result of [getDiff] holds that
    event subject to the operation filter.  Moreover every created
    candidate is paired at most once, and so is every removed candidate
    that matches at most one created candidate. *)
Theorem getDiff_rename_move (r c : string) (ir ic : FileInfo) :
  files w !! r = Some ir → fileList !! r = None →
  fileList !! c = Some ic → files w !! c = None →
  sameFile ir ic = true →
  (∀ c' ic', fileList !! c' = Some ic' → files w !! c' = None →
             sameFile ir ic' = true → c' = c) →
  (∀ r' ir', files w !! r' = Some ir' → fileList !! r' = None →
             sameFile ir' ic = true → r' = r) →
  filter (concerns r c) (diffEvents o w fileList)
  = [mkEvent (if decide (Dir r = Dir c) then Rename else Move) c r ir]
  ∧ filter (concerns r c) (getDiff o w fileList)
    = filterRes (ops w)
        [mkEvent (if decide (Dir r = Dir c) then Rename else Move) c r ir]
  ∧ (∀ c', (length (filter (λ e, isPair e ∧ Path e = c')
                           (diffEvents o w fileList)) ≤ 1)%nat)
  ∧ (∀ r' ir',
       files w !! r' = Some ir' →
       (∀ c1 i1 c2 i2,
          fileList !! c1 = Some i1 → files w !! c1 = None →
          sameFile ir' i1 = true →
          fileList !! c2 = Some i2 → files w !! c2 = None →
          sameFile ir' i2 = true → c1 = c2) →
       (length (filter (λ e, isPair e ∧ OldPath e = r')
                       (diffEvents o w fileList)) ≤ 1)%nat).
Proof.
  intros Hr Hr' Hc Hc' Hsame Huc Hur.
  assert (Hmain : filter (concerns r c) (diffEvents o w fileList)
                  = [evOf r ir (c, ic)]).
  { destruct (diffEvents_spec o w fileList)
      as (removes & creates & evs & -> &
          [_ Hrem Hcre Hev Hcons Hcount Hdone]).
    assert (Hremoved : removed o w fileList !! r = Some ir)
      by (by apply removed_lookup).
    assert (Hcreated : (changed o w fileList).1 !! c = Some ic)
      by (by apply created_lookup).
    (* [c] has been consumed *)
    assert (Hcgone : creates !! c = None).
    { destruct (creates !! c) as [i|] eqn:Hi; [|done].
      pose proof (Hdone r ir Hremoved (not_elem_of_nil _) c i Hi) as Hs.
      apply Hcre in Hi. congruence. }
    (* the events of the loop that speak of [r] or [c] *)
    assert (Honly : ∀ e, e ∈ evs → concerns r c e → e = evOf r ir (c, ic)).
    { intros e He Hcon.
      destruct (Hev e He) as (p1 & i1 & p2 & i2 & -> & Hp1 & Hp2 & Hs).
      apply removed_lookup in Hp1 as [Hp1 Hp1'].
      apply created_lookup in Hp2 as [Hp2 Hp2'].
      unfold concerns in Hcon. rewrite evPaths_evOf in Hcon. simpl in Hcon.
      rewrite !elem_of_cons, !elem_of_nil in Hcon.
      destruct Hcon as [[->| [->|[]]] | [->| [->|[]]]]; try congruence.
      - assert (i1 = ir) by congruence. subst i1.
        assert (p2 = c) by (by apply (Huc p2 i2)). subst p2.
        congruence.
      - assert (i2 = ic) by congruence. subst i2.
        assert (p1 = r) by (by apply (Hur p1 i1)). subst p1.
        congruence. }
    assert (Hevs : filter (concerns r c) evs = [evOf r ir (c, ic)]).
    { rewrite (filter_ext_in _ (λ e, Path e = c)).
      - apply one_element.
        + specialize (Hcount c). unfold present in Hcount.
          rewrite Hcgone, Hcreated in Hcount. lia.
        + intros e [Hp He]%list_elem_of_filter. apply Honly; [done|].
          right. rewrite <- Hp. unfold evPaths.
          destruct (EvOp e); left.
      - intros e He. split.
        + intros Hcon. by rewrite (Honly e He Hcon).
        + intros <-. right. unfold evPaths. destruct (EvOp e); left. }
    (* [r] has been consumed *)
    assert (Hrgone : removes !! r = None).
    { assert (Hin : evOf r ir (c, ic) ∈ filter (concerns r c) evs)
        by (rewrite Hevs; left).
      apply list_elem_of_filter in Hin as [_ Hin].
      apply (Hcons _ Hin). }
    rewrite !filter_app, Hevs.
    rewrite (filter_none _ (flat_map _ _)), (filter_none _ (createOf <$> _)),
            (filter_none _ (removeOf <$> _)); [done| | |].
    - intros e [[k v] [-> Hkv]]%list_elem_of_fmap.
      apply elem_of_rangeOf in Hkv.
      pose proof (Hrem _ _ Hkv) as [Hk Hk']%removed_lookup.
      unfold concerns, evPaths, removeOf. simpl.
      rewrite !elem_of_cons, !elem_of_nil.
      intros [[->| [->|[]]] | [->| [->|[]]]]; congruence.
    - intros e [[k v] [-> Hkv]]%list_elem_of_fmap.
      apply elem_of_rangeOf in Hkv.
      pose proof (Hcre _ _ Hkv) as [Hk Hk']%created_lookup.
      unfold concerns, evPaths, createOf. simpl.
      rewrite !elem_of_cons, !elem_of_nil.
      intros [[->|[]] | [->|[]]]; congruence.
    - intros e (k & v & old & Hk & Hk' & [-> | ->])%inPlace_shape;
        unfold concerns, evPaths; simpl;
        rewrite !elem_of_cons, !elem_of_nil;
        intros [[->| [->|[]]] | [->| [->|[]]]]; congruence. }
  split; [exact Hmain|]. split; [|split].
  - unfold getDiff. rewrite filterRes_filter. by rewrite Hmain.
  - apply created_paired_once.
  - apply removed_paired_once.
Qed.
End RenameMove.

Lemma getDiff_rename_move_witness :
  filter (concerns "/d/b" "/d/x") (diffEvents reverseOrder watcherOfB renamedB)
  = [mkEvent Rename "/d/x" "/d/b" (info "b" 1 420 11)].
Proof.
  refine (proj1 (getDiff_rename_move reverseOrder watcherOfB renamedB
                   "/d/b" "/d/x" (info "b" 1 420 11) (info "x" 1 420 11)
                   _ _ _ _ _ _ _)); try reflexivity.
  - intros c' ic' Hc' Hnew Hs. unfold renamedB in Hc'.
    apply lookup_insert_Some in Hc' as [[<- <-] | [_ Hc']]; [discriminate Hnew|].
    by apply lookup_singleton_Some in Hc' as [<- _].
  - intros r' ir' Hr' Hgone Hs. unfold watcherOfB in Hr'. simpl in Hr'.
    apply lookup_insert_Some in Hr' as [[<- <-] | [_ Hr']]; [discriminate Hgone|].
    by apply lookup_singleton_Some in Hr' as [<- _].
Defined.

(** Without the uniqueness of the match the loop goes on after a hit: a
    removed file with two created hard links is paired with both. *)
Example getDiff_two_links :
  getDiff mapOrder watcherOfA
          (<["/d/l1" := info "l1" 1 420 10]> {["/d/l2" := info "l2" 1 420 10]})
  = [mkEvent Rename "/d/l1" "/d/a" (info "a" 1 420 10);
     mkEvent Rename "/d/l2" "/d/a" (info "a" 1 420 10)].
Proof. vm_compute. reflexivity. Qed.

(** ** Shallow registration *)

Lemma length_append (s t : string) :
  String.length (s +:+ t) = String.length s + String.length t.
Proof. induction s as [|c s IH]; simpl; [done | by rewrite IH]. Qed.

Lemma Join_inj (dir : string) : Inj (=) (=) (Join dir).
Proof.
  intros a b. unfold Join. case_decide.
  - apply (inj (String.append "/")).
  - intros Hab. apply (inj (String.append dir)) in Hab.
    by apply (inj (String.append "/")) in Hab.
Qed.

Lemma Join_ne (dir name : string) : name ≠ "" → Join dir name ≠ dir.
Proof.
  intros Hname Heq. apply (f_equal String.length) in Heq.
  unfold Join in Heq. case_decide as Hd.
  - subst dir. destruct name; [done | simpl in Heq; lia].
  - rewrite !length_append in Heq. simpl in Heq. lia.
Qed.

Section StoreLoop.
Context {A : Type} (key : A → string).

Lemma store_other (l : list A) (acc : gmap string A) (k : string) :
  k ∉ key <$> l → store key l acc !! k = acc !! k.
Proof.
  revert acc. induction l as [|a l IH]; intros acc Hk; [done|].
  rewrite fmap_cons, not_elem_of_cons in Hk. destruct Hk as [Hne Hk].
  unfold store in *. simpl. rewrite IH by done. by apply lookup_insert_ne.
Qed.

Lemma store_elem (l : list A) (acc : gmap string A) (i : A) :
  NoDup (key <$> l) → i ∈ l → store key l acc !! key i = Some i.
Proof.
  revert acc. induction l as [|a l IH]; intros acc Hnd Hi.
  - by apply elem_of_nil in Hi.
  - rewrite fmap_cons in Hnd. apply NoDup_cons in Hnd as [Ha Hnd].
    apply elem_of_cons in Hi as [->|Hi].
    + change (store key (a :: l) acc) with (store key l (<[key a := a]> acc)).
      rewrite store_other by done. apply lookup_insert_eq.
    + by apply IH.
Qed.

Lemma store_size (l : list A) (acc : gmap string A) :
  NoDup (key <$> l) → (∀ i, i ∈ l → acc !! key i = None) →
  size (store key l acc) = length l + size acc.
Proof.
  revert acc. induction l as [|a l IH]; intros acc Hnd Hacc; [done|].
  rewrite fmap_cons in Hnd. apply NoDup_cons in Hnd as [Ha Hnd].
  change (store key (a :: l) acc) with (store key l (<[key a := a]> acc)).
  rewrite IH; [|done|].
  - rewrite map_size_insert_None by (apply Hacc; left). simpl. lia.
  - intros i Hi. rewrite lookup_insert_ne; [apply Hacc; by right|].
    intros Heq. apply Ha. rewrite Heq. by apply list_elem_of_fmap_2.
Qed.
End StoreLoop.

Section Shallow.
Context `{Platform}.
Variable fs : FileSystem.

Lemma listEntries_ok (w : Watcher) (name : string)
    (fInfoList : list FileInfo) (fileList : gmap string FileInfo) :
  (∀ fInfo, fInfo ∈ fInfoList → ∃ b, childVerdict w name fInfo = Ok b) →
  listEntries w name fInfoList fileList
  = Ok (store (λ fInfo, Join name (Name fInfo)) (kept w name fInfoList)
              fileList).
Proof.
  revert fileList. induction fInfoList as [|i l IH]; intros fileList Hok;
    [done|].
  assert (Hl : ∀ fInfo, fInfo ∈ l → ∃ b, childVerdict w name fInfo = Ok b)
    by (intros fInfo Hin; apply Hok; by right).
  destruct (Hok i) as [b Hb]; [left|].
  unfold kept. rewrite filter_cons. fold (kept w name l).
  simpl. unfold childVerdict in Hb |- *.
  destruct (isHiddenFile (Join name (Name i))) as [h|e]; [|done].
  destruct (excluded w (Join name (Name i)) h).
  - rewrite decide_False by done. by apply IH.
  - destruct (runHooks (ffh w) i (Join name (Name i))); [| |done].
    + rewrite decide_True by done. by apply IH.
    + rewrite decide_False by done. by apply IH.
Qed.

(** C9, as the code has it.  [Add] of a path that is in the ignore set,
    or that is hidden while hidden files are ignored, returns a nil error
    and leaves the watcher as it was (the filter hooks are not asked
    about the path itself).  Otherwise, on a directory whose entries
    have distinct, non-empty names and raise no error in the filtering
    chain, [Add] merges into the stored mapping a listing of exactly
    [N + 1] entries, the directory and its [N] immediate children that
    pass the chain, every key being the directory or the directory
    joined with the name of such a child, and records the root as not
    recursive. *)
Theorem Add_shallow (w : Watcher) (name P : string) (isHidden : bool) :
  fsAbs fs name = Ok P →
  isHiddenFile P = Ok isHidden →
  (excluded w P isHidden = true → Add fs name w = (w, None))
  ∧ (excluded w P isHidden = false →
     ∀ stat fInfoList,
       Stat fs P = Ok stat → IsDir stat = true →
       ReadDir fs P = Ok fInfoList →
       NoDup (Name <$> fInfoList) →
       (∀ fInfo, fInfo ∈ fInfoList → Name fInfo ≠ "") →
       (∀ fInfo, fInfo ∈ fInfoList → ∃ b, childVerdict w P fInfo = Ok b) →
       ∃ fileList,
         Watcher_list fs w P = Ok fileList
         ∧ Add fs name w
           = (setNames (setFiles w (fileList ∪ files w))
                       (<[P := false]> (names w)), None)
         ∧ names (Add fs name w).1 !! P = Some false
         ∧ size fileList = S (length (kept w P fInfoList))
         ∧ fileList !! P = Some stat
         ∧ (∀ fInfo, fInfo ∈ kept w P fInfoList →
              fileList !! Join P (Name fInfo) = Some fInfo)
         ∧ (∀ k, is_Some (fileList !! k) →
              k = P ∨ ∃ fInfo, fInfo ∈ kept w P fInfoList
                               ∧ k = Join P (Name fInfo))).
Proof.
  intros Habs Hhid. split.
  - intros Hex. unfold Add. by rewrite Habs, Hhid, Hex.
  - intros Hex stat fInfoList Hstat Hdir Hread Hnd Hname Hok.
    set (key := λ fInfo : FileInfo, Join P (Name fInfo)).
    exists (store key (kept w P fInfoList) {[P := stat]}).
    assert (Hlist : Watcher_list fs w P
                    = Ok (store key (kept w P fInfoList) {[P := stat]})).
    { unfold Watcher_list. rewrite Hstat, Hdir, Hread. simpl.
      by apply listEntries_ok. }
    assert (Hkeys : NoDup (key <$> kept w P fInfoList)).
    { unfold key. rewrite (list_fmap_compose Name (Join P)).
      apply NoDup_fmap_2_strong; [intros a b _ _; apply Join_inj|].
      eapply sublist_NoDup; [exact Hnd|].
      unfold kept. apply fmap_sublist, sublist_filter. }
    assert (Hkept : ∀ fInfo, fInfo ∈ kept w P fInfoList → fInfo ∈ fInfoList).
    { intros fInfo Hin. unfold kept in Hin.
      by apply list_elem_of_filter in Hin as [_ Hin]. }
    assert (Hroot : P ∉ key <$> kept w P fInfoList).
    { intros [fInfo [Heq Hin]]%list_elem_of_fmap. unfold key in Heq.
      symmetry in Heq. by apply Join_ne in Heq; [|apply Hname, Hkept]. }
    split; [exact Hlist|]. split; [|split; [|split; [|split; [|split]]]].
    + unfold Add. by rewrite Habs, Hhid, Hex, Hlist.
    + unfold Add. rewrite Habs, Hhid, Hex, Hlist. simpl.
      apply lookup_insert_eq.
    + rewrite store_size; [|exact Hkeys|].
      * rewrite map_size_singleton. lia.
      * intros fInfo Hin. apply lookup_singleton_ne.
        intros Heq. apply Hroot. apply list_elem_of_fmap.
        exists fInfo. by split.
    + rewrite store_other by done. apply lookup_singleton_eq.
    + intros fInfo Hin. by apply (store_elem key).
    + intros k Hk.
      destruct (decide (k ∈ key <$> kept w P fInfoList)) as [Hin|Hnin].
      * right. apply list_elem_of_fmap in Hin as [fInfo [-> Hin]]. eauto.
      * left. rewrite store_other in Hk by done.
        destruct Hk as [x Hx].
        by apply lookup_singleton_Some in Hx as [<- _].
Qed.
End Shallow.

(** The watcher that ignores hidden files, on [treeFS]: of the three
    entries of [/r], [.git] is left out. *)
Lemma Add_shallow_witness :
  excluded (IgnoreHiddenFiles true New) "/r" false = false
  ∧ ∃ fileList,
      Watcher_list treeFS (IgnoreHiddenFiles true New) "/r" = Ok fileList
      ∧ size fileList = 3
      ∧ names (Add treeFS "/r" (IgnoreHiddenFiles true New)).1 !! "/r"
        = Some false.
Proof.
  split; [reflexivity|].
  assert (Hhidden : isHiddenFile "/r" = Ok false) by reflexivity.
  destruct (Add_shallow treeFS (IgnoreHiddenFiles true New) "/r" "/r" false
              eq_refl Hhidden) as [_ Hadd].
  destruct (Hadd eq_refl (asDir (info "r" 1 493 1))
              [asDir (info ".git" 1 493 3); asFile (info "a.go" 1 420 2);
               asDir (info "sub" 1 493 5)])
    as (fileList & Hlist & _ & Hnames & Hsize & _).
  - vm_compute. reflexivity.
  - reflexivity.
  - vm_compute. reflexivity.
  - apply (bool_decide_unpack _). vm_compute. reflexivity.
  - apply Forall_forall. repeat constructor; discriminate.
  - apply Forall_forall. repeat constructor; eexists; vm_compute; reflexivity.
  - exists fileList. split; [exact Hlist|]. split; [|exact Hnames].
    rewrite Hsize. vm_compute. reflexivity.
Defined.

(** C9 fails as it is stated: the filter hooks exclude [/r/a.go], yet
    [Add] stores it and registers it. *)
Lemma Add_stores_root_hooks_skip :
  runHooks (ffh (AddFilterHook skipAll New)) (asFile (info "a.go" 1 420 2))
           "/r/a.go" = Skip
  ∧ (Add treeFS "/r/a.go" (AddFilterHook skipAll New)).2 = None
  ∧ files (Add treeFS "/r/a.go" (AddFilterHook skipAll New)).1 !! "/r/a.go"
    = Some (asFile (info "a.go" 1 420 2))
  ∧ names (Add treeFS "/r/a.go" (AddFilterHook skipAll New)).1 !! "/r/a.go"
    = Some false.
Proof. repeat split; vm_compute; reflexivity. Qed.

Lemma getDiff_filter_witness :
  getDiff mapOrder (FilterOps [Chmod] watcherOfA) touchedA
  = [mkEvent Chmod "/d/a" "/d/a" (info "a" 2 493 10)].
Proof.
  destruct (getDiff_filter mapOrder watcherOfA touchedA) as (_ & _ & Hl & _).
  rewrite (Hl [Chmod]) by discriminate.
  vm_compute. reflexivity.
Defined.

(** ** Walking a tree *)

(** Induction on a node with the property at hand for every entry of a
    directory. *)
Lemma Node_nested_ind (P : Node → Prop) :
  (∀ i, P (File i)) →
  (∀ i es, Forall (λ e, P e.2) es → P (Directory i es)) →
  (∀ i e, P (Unreadable i e)) →
  (∀ e, P (Broken e)) →
  ∀ n, P n.
Proof.
  intros HF HD HU HB. fix IH 1. intros [i|i es|i e|e].
  - apply HF.
  - apply HD. induction es as [|e es IHes]; constructor; [apply IH | exact IHes].
  - apply HU.
  - apply HB.
Qed.

Lemma subnodes_dir (path : string) (i : FileInfo) (es : list (string * Node)) :
  (subnodes path (Directory i es)).*1 = path :: below path es.
Proof. reflexivity. Qed.

Lemma below_cons (path : string) (e : string * Node)
    (es : list (string * Node)) :
  below path (e :: es)
  = ((subnodes (Join path e.1) e.2).*1 ++ below path es)%list.
Proof. unfold below. simpl. by rewrite fmap_app. Qed.

Section WalkShape.
Context {S : Type} (f : WalkFunc S).

Lemma walkEntries_cons (wc : string → Node → S → S * option error)
    (path : string) (e : string * Node) (rest : list (string * Node)) (s : S) :
  walkEntries wc path (e :: rest) s = wc (Join path e.1) e.2 s
  ∨ walkEntries wc path (e :: rest) s
    = walkEntries wc path rest (wc (Join path e.1) e.2 s).1.
Proof.
  simpl. destruct (wc (Join path e.1) e.2 s) as [s' [err|]]; simpl; [|by right].
  destruct (decide (err = SkipDir)); [|by left].
  destruct e.2; [by left | by right | by right | by right].
Qed.

Lemma walk_dir (path : string) (i : FileInfo) (es : list (string * Node))
    (s : S) :
  walk f path (Directory i es) s = f path (Ok (asDir i)) s
  ∨ walk f path (Directory i es) s
    = walkEntries (walk f) path es (f path (Ok (asDir i)) s).1.
Proof.
  simpl. destruct (f path (Ok (asDir i)) s) as [s1 [err|]]; [by left | by right].
Qed.

(** A callback that answers [SkipDir] on a directory ends the walk of the
    directory there: none of its entries is walked. *)
Lemma walk_dir_skipped (path : string) (i : FileInfo)
    (es : list (string * Node)) (s s1 : S) :
  f path (Ok (asDir i)) s = (s1, Some SkipDir) →
  walk f path (Directory i es) s = (s1, Some SkipDir).
Proof. intros Hf. simpl. by rewrite Hf. Qed.
End WalkShape.

Section WalkFacts.
Context {S : Type} (f : WalkFunc S).

Lemma logged_eq (path : string) (lstat : result FileInfo) (s : S)
    (log : list string) :
  logged f path lstat (s, log)
  = (((f path lstat s).1, (log ++ [path])%list), (f path lstat s).2).
Proof. unfold logged. simpl. by destruct (f path lstat s). Qed.

(** Walking with the recording callback is walking with the callback. *)
Lemma walk_logged (n : Node) :
  ∀ path s log,
    ((walk (logged f) path n (s, log)).1.1, (walk (logged f) path n (s, log)).2)
    = walk f path n s.
Proof.
  induction n as [i|i es IH|i e|e] using Node_nested_ind; intros path s log.
  - cbn [walk]. rewrite logged_eq. simpl. by destruct (f path (Ok (asFile i)) s).
  - cbn [walk]. rewrite logged_eq.
    destruct (f path (Ok (asDir i)) s) as [s1 [err|]]; cbn [fst snd]; [done|].
    generalize (log ++ [path])%list. clear log. revert s1.
    induction IH as [|e es He _ IHes]; intros s1 log; [done|].
    cbn [walkEntries]. specialize (He (Join path e.1) s1 log).
    destruct (walk (logged f) (Join path e.1) e.2 (s1, log)) as [[s' log'] r].
    simpl in He. rewrite <- He.
    destruct r as [err|]; [|apply IHes].
    destruct (decide (err = SkipDir)); [|done].
    destruct e.2; [done | apply IHes | apply IHes | apply IHes].
  - cbn [walk]. rewrite logged_eq. simpl. by destruct (f path (Err e) s).
  - cbn [walk]. rewrite logged_eq. simpl. by destruct (f path (Err e) s).
Qed.

Lemma Walk_logged (fs : FileSystem) (root : string) (s : S) (log : list string) :
  ((Walk (logged f) fs root (s, log)).1.1, (Walk (logged f) fs root (s, log)).2)
  = Walk f fs root s.
Proof.
  unfold Walk. destruct (lookupNode fs root) as [n|].
  - pose proof (walk_logged n root s log) as Hw.
    destruct (walk (logged f) root n (s, log)) as [[s' log'] r].
    simpl in Hw. rewrite <- Hw. by destruct (decide (r = Some SkipDir)).
  - rewrite logged_eq.
    destruct (f root (Err (PathError root true)) s) as [s' r]. simpl.
    by destruct (decide (r = Some SkipDir)).
Qed.

Lemma logged_log (path : string) (lstat : result FileInfo)
    (st : S * list string) :
  (logged f path lstat st).1.2 = (st.2 ++ [path])%list.
Proof. unfold logged. by destruct (f path lstat st.1). Qed.

(** The walk of a node visits paths of that node only. *)
Lemma walk_visits (n : Node) :
  ∀ path st q,
    q ∈ (walk (logged f) path n st).1.2 →
    q ∈ st.2 ∨ q ∈ (subnodes path n).*1.
Proof.
  assert (Hone : ∀ path lstat st q,
            q ∈ (logged f path lstat st).1.2 → q ∈ st.2 ∨ q = path).
  { intros path lstat st q. rewrite logged_log, elem_of_app.
    rewrite list_elem_of_singleton. tauto. }
  induction n as [i|i es IH|i e|e] using Node_nested_ind; intros path st q.
  - simpl. intros [? | ->]%Hone; [by left | right; left].
  - rewrite subnodes_dir.
    destruct (walk_dir (logged f) path i es st) as [-> | ->].
    { intros [? | ->]%Hone; [by left | right; left]. }
    intros Hq.
    assert (Hloop : q ∈ (logged f path (Ok (asDir i)) st).1.2 ∨ q ∈ below path es).
    { revert Hq. generalize (logged f path (Ok (asDir i)) st).1.
      induction IH as [|e es He _ IHes]; intros st1 Hq; [by left|].
      rewrite below_cons, elem_of_app.
      destruct (walkEntries_cons (walk (logged f)) path e es st1) as [Hw | Hw];
        rewrite Hw in Hq.
      - apply He in Hq. tauto.
      - apply IHes in Hq as [Hq|Hq]; [|tauto]. apply He in Hq. tauto. }
    destruct Hloop as [[? | ->]%Hone | ?]; [by left | right; left | right; by right].
  - simpl. intros [? | ->]%Hone; [by left | right; left].
  - simpl. intros [? | ->]%Hone; [by left | right; left].
Qed.

Lemma walkEntries_visits (path : string) (es : list (string * Node))
    (st : S * list string) (q : string) :
  q ∈ (walkEntries (walk (logged f)) path es st).1.2 →
  q ∈ st.2 ∨ q ∈ below path es.
Proof.
  revert st. induction es as [|e es IH]; intros st Hq; [by left|].
  rewrite below_cons, elem_of_app.
  destruct (walkEntries_cons (walk (logged f)) path e es st) as [Hw | Hw];
    rewrite Hw in Hq.
  - apply walk_visits in Hq. tauto.
  - apply IH in Hq as [Hq|Hq]; [|tauto]. apply walk_visits in Hq. tauto.
Qed.
End WalkFacts.

Lemma elem_of_flat_map {A B : Type} (g : A → list B) (l : list A) (y : B) :
  y ∈ flat_map g l ↔ ∃ x, x ∈ l ∧ y ∈ g x.
Proof.
  rewrite list_elem_of_In, in_flat_map. split.
  - intros (x & Hx & Hy). exists x. by rewrite !list_elem_of_In.
  - intros (x & Hx & Hy). exists x. by rewrite <- !list_elem_of_In.
Qed.

Lemma elem_of_below (path : string) (es : list (string * Node)) (q : string) :
  q ∈ below path es ↔ ∃ e, e ∈ es ∧ q ∈ (subnodes (Join path e.1) e.2).*1.
Proof.
  unfold below. rewrite list_elem_of_fmap. split.
  - intros (x & -> & Hx). apply elem_of_flat_map in Hx as (e & He & Hx).
    exists e. split; [done|]. by apply list_elem_of_fmap_2.
  - intros (e & He & Hq). apply list_elem_of_fmap in Hq as (x & -> & Hx).
    exists x. split; [done|]. apply elem_of_flat_map. eauto.
Qed.

(** The paths of a node of the tree are paths of the tree. *)
Lemma subnodes_closed (n : Node) :
  ∀ path pd d x,
    (pd, d) ∈ subnodes path n → x ∈ (subnodes pd d).*1 →
    x ∈ (subnodes path n).*1.
Proof.
  induction n as [i|i es IH|i e|e] using Node_nested_ind;
    intros path pd d x Hd Hx.
  - apply list_elem_of_singleton in Hd. by inversion Hd; subst.
  - cbn [subnodes] in Hd. apply elem_of_cons in Hd as [Hd|Hd].
    + by inversion Hd; subst.
    + rewrite subnodes_dir. right.
      apply elem_of_flat_map in Hd as (e & He & Hd).
      apply elem_of_below. exists e. split; [done|].
      rewrite Forall_forall in IH. by apply (IH e He _ pd d).
  - apply list_elem_of_singleton in Hd. by inversion Hd; subst.
  - apply list_elem_of_singleton in Hd. by inversion Hd; subst.
Qed.

Lemma below_closed (path : string) (es : list (string * Node))
    (pd : string) (d : Node) (x : string) :
  (pd, d) ∈ flat_map (λ e, subnodes (Join path e.1) e.2) es →
  x ∈ (subnodes pd d).*1 → x ∈ below path es.
Proof.
  intros (e & He & Hd)%elem_of_flat_map Hx.
  apply elem_of_below. exists e. split; [done|].
  by apply (subnodes_closed _ _ pd d).
Qed.

Section Pruning.
Context {S : Type} (f : WalkFunc S).

(** In a tree whose paths are distinct, a directory on which the callback
    answers [SkipDir] keeps every path below it out of the walk. *)
Lemma walk_prunes (n : Node) :
  ∀ path st pd i es q,
    NoDup (subnodes path n).*1 →
    (pd, Directory i es) ∈ subnodes path n →
    (∀ s, (f pd (Ok (asDir i)) s).2 = Some SkipDir) →
    q ∈ below pd es →
    q ∈ (walk (logged f) path n st).1.2 → q ∈ st.2.
Proof.
  induction n as [i0|i0 es0 IH|i0 e0|e0] using Node_nested_ind;
    intros path st pd i es q Hnd Hd Hskip Hq Hlog.
  - apply list_elem_of_singleton in Hd. discriminate Hd.
  - rewrite subnodes_dir in Hnd. apply NoDup_cons in Hnd as [Hpath Hnd].
    assert (Hhere : ∀ lstat, q ∈ (logged f path lstat st).1.2 →
                             q ∈ below path es0 → q ∈ st.2).
    { intros lstat. rewrite logged_log, elem_of_app, list_elem_of_singleton.
      intros [?| ->] Hb; [done | contradiction]. }
    cbn [subnodes] in Hd. apply elem_of_cons in Hd as [Hd|Hd].
    + inversion Hd; subst pd i0 es0.
      rewrite (walk_dir_skipped (logged f) path i es st
                 ((f path (Ok (asDir i)) st.1).1, (st.2 ++ [path])%list))
        in Hlog.
      * simpl in Hlog. apply elem_of_app in Hlog as [?|Hlog]; [done|].
        apply list_elem_of_singleton in Hlog. by subst q.
      * destruct st as [s log]. rewrite logged_eq. simpl. by rewrite Hskip.
    + assert (Hqb : q ∈ below path es0).
      { apply (below_closed path es0 pd (Directory i es)); [done|].
        rewrite subnodes_dir. by right. }
      destruct (walk_dir (logged f) path i0 es0 st) as [Hw | Hw];
        rewrite Hw in Hlog; [by apply (Hhere (Ok (asDir i0)))|].
      apply (Hhere (Ok (asDir i0))); [|done].
      revert Hlog. generalize (logged f path (Ok (asDir i0)) st).1.
      clear Hw Hhere Hpath st.
      induction IH as [|e rest He _ IHrest]; intros st Hlog;
        [by apply elem_of_nil in Hd|].
      rewrite below_cons in Hnd, Hqb.
      apply NoDup_app in Hnd as (HndA & Hdisj & HndB).
      cbn [flat_map] in Hd. apply elem_of_app in Hd as [Hd|Hd].
      * assert (HqA : q ∈ (subnodes (Join path e.1) e.2).*1).
        { apply (subnodes_closed _ _ pd (Directory i es)); [done|].
          rewrite subnodes_dir. by right. }
        destruct (walkEntries_cons (walk (logged f)) path e rest st) as [Hw | Hw];
          rewrite Hw in Hlog.
        -- apply (He (Join path e.1) st pd i es q); assumption.
        -- apply walkEntries_visits in Hlog as [Hlog|Hlog].
           ++ apply (He (Join path e.1) st pd i es q); assumption.
           ++ by apply Hdisj in HqA.
      * assert (HqB : q ∈ below path rest).
        { apply (below_closed path rest pd (Directory i es)); [done|].
          rewrite subnodes_dir. by right. }
        assert (Hchild : q ∈ (walk (logged f) (Join path e.1) e.2 st).1.2
                         → q ∈ st.2).
        { intros [?|HqA]%walk_visits; [done|]. by apply Hdisj in HqA. }
        destruct (walkEntries_cons (walk (logged f)) path e rest st) as [Hw | Hw];
          rewrite Hw in Hlog; [by apply Hchild|].
        apply Hchild. by apply IHrest.
  - apply list_elem_of_singleton in Hd. discriminate Hd.
  - apply list_elem_of_singleton in Hd. discriminate Hd.
Qed.

(** What every call of the callback keeps, the walk keeps. *)
Lemma walk_invariant (Inv : S → Prop) :
  (∀ path lstat s, Inv s → Inv (f path lstat s).1) →
  ∀ n path s, Inv s → Inv (walk f path n s).1.
Proof.
  intros Hf.
  induction n as [i|i es IH|i e|e] using Node_nested_ind; intros path s Hs;
    try (by apply Hf).
  destruct (walk_dir f path i es s) as [-> | ->]; [by apply Hf|].
  assert (Hs1 : Inv (f path (Ok (asDir i)) s).1) by (by apply Hf).
  revert Hs1. generalize (f path (Ok (asDir i)) s).1.
  induction IH as [|e rest He _ IHrest]; intros s1 Hs1; [done|].
  destruct (walkEntries_cons (walk f) path e rest s1) as [-> | ->].
  - by apply He.
  - by apply IHrest, He.
Qed.
End Pruning.

(** ** Recursive listing *)

Section Recursive.
Context `{Platform}.
Variable fs : FileSystem.
Variable w : Watcher.

(** A directory that passes the hooks and is ignored, or hidden while
    hidden files are ignored, makes the callback answer [SkipDir]. *)
Lemma listWalkFn_excluded_dir (path : string) (i : FileInfo) (isHidden : bool)
    (fileList : gmap string FileInfo) :
  runHooks (ffh w) (asDir i) path = Pass →
  isHiddenFile path = Ok isHidden →
  excluded w path isHidden = true →
  listWalkFn w path (Ok (asDir i)) fileList = (fileList, Some SkipDir).
Proof. intros Hh Hi He. unfold listWalkFn. by rewrite Hh, Hi, He. Qed.

(** Every key of the listing is a visited path. *)
Lemma listWalkFn_keys (path : string) (lstat : result FileInfo)
    (st : gmap string FileInfo * list string) :
  (∀ q, is_Some (st.1 !! q) → q ∈ st.2) →
  ∀ q, is_Some ((logged (listWalkFn w) path lstat st).1.1 !! q)
       → q ∈ (logged (listWalkFn w) path lstat st).1.2.
Proof.
  intros Hst q. destruct st as [m log]. rewrite logged_eq. simpl in *.
  rewrite elem_of_app, list_elem_of_singleton.
  unfold listWalkFn. destruct lstat as [info0|e]; simpl; [|by left; apply Hst].
  destruct (runHooks (ffh w) info0 path); simpl; try (by left; apply Hst).
  destruct (isHiddenFile path) as [h|e]; simpl; [|by left; apply Hst].
  destruct (excluded w path h); simpl.
  - destruct (IsDir info0); simpl; by left; apply Hst.
  - destruct (decide (q = path)) as [->|Hne]; [by right|].
    rewrite lookup_insert_ne by done. by left; apply Hst.
Qed.

Lemma listRecursive_keys_visited (name q : string) :
  is_Some ((listRecursive fs w name).1 !! q) → q ∈ visited fs w name.
Proof.
  unfold listRecursive, visited.
  rewrite <- (Walk_logged (listWalkFn w) fs name ∅ []). simpl.
  unfold Walk.
  set (st := match lookupNode fs name with
             | Some n => walk (logged (listWalkFn w)) name n (∅, [])
             | None => logged (listWalkFn w) name
                              (Err (PathError name true)) (∅, [])
             end).
  assert (Hst : ∀ q, is_Some (st.1.1 !! q) → q ∈ st.1.2).
  { unfold st. destruct (lookupNode fs name) as [n|].
    - apply (walk_invariant (logged (listWalkFn w))
               (λ st, ∀ q, is_Some (st.1 !! q) → q ∈ st.2)).
      + intros path lstat s. apply listWalkFn_keys.
      + simpl. intros q' [x Hx]. by rewrite lookup_empty in Hx.
    - apply listWalkFn_keys. simpl. intros q' [x Hx].
      by rewrite lookup_empty in Hx. }
  destruct st as [st' err]. destruct (decide (err = Some SkipDir)); apply Hst.
Qed.

(** C4, as the code has it.  In a tree whose paths are distinct, a
    directory that passes the filter hooks and is excluded by the ignore
    set or by the hidden-file policy is not walked into: the callback
    answers [SkipDir] on it, no path below it is visited and none is a key
    of the resulting mapping.  A directory on which a filter hook answers
    [ErrSkip] is left out of the mapping and the walk goes on with its
    entries. *)
Theorem listRecursive_prunes (root : string) (tree : Node) (pd : string)
    (i : FileInfo) (es : list (string * Node)) (isHidden : bool) :
  lookupNode fs root = Some tree →
  NoDup (subnodes root tree).*1 →
  (pd, Directory i es) ∈ subnodes root tree →
  runHooks (ffh w) (asDir i) pd = Pass →
  isHiddenFile pd = Ok isHidden →
  excluded w pd isHidden = true →
  (∀ fileList,
     walk (listWalkFn w) pd (Directory i es) fileList
     = (fileList, Some SkipDir))
  ∧ (∀ q, q ∈ below pd es →
          (q ∉ visited fs w root)
          ∧ (listRecursive fs w root).1 !! q = None)
  ∧ (∀ p' i' es' fileList,
       runHooks (ffh w) (asDir i') p' = Skip →
       walk (listWalkFn w) p' (Directory i' es') fileList
       = walkEntries (walk (listWalkFn w)) p' es' fileList).
Proof.
  intros Hroot Hnd Hd Hhooks Hhid Hex. split; [|split].
  - intros fileList. apply walk_dir_skipped.
    by apply (listWalkFn_excluded_dir pd i isHidden).
  - intros q Hq.
    assert (Hnv : q ∉ visited fs w root).
    { unfold visited, Walk. rewrite Hroot. intros Hv.
      assert (Hlog : q ∈ (walk (logged (listWalkFn w)) root tree (∅, [])).1.2).
      { destruct (walk (logged (listWalkFn w)) root tree (∅, [])) as [st err].
        by destruct (decide (err = Some SkipDir)). }
      apply (walk_prunes (listWalkFn w) tree root (∅, []) pd i es q) in Hlog;
        try done.
      - by apply elem_of_nil in Hlog.
      - intros s. by rewrite (listWalkFn_excluded_dir pd i isHidden). }
    split; [exact Hnv|].
    destruct ((listRecursive fs w root).1 !! q) as [x|] eqn:Hx; [|done].
    exfalso. apply Hnv, listRecursive_keys_visited. by rewrite Hx.
  - intros p' i' es' fileList Hskip. cbn [walk]. unfold listWalkFn at 1.
    by rewrite Hskip.
Qed.
End Recursive.

(** On [treeFS] with hidden files ignored, [/r/.git] is pruned. *)
Lemma listRecursive_prunes_witness :
  ("/r/.git/cfg" ∉ visited treeFS (IgnoreHiddenFiles true New) "/r")
  ∧ (listRecursive treeFS (IgnoreHiddenFiles true New) "/r").1 !! "/r/.git/cfg"
    = None.
Proof.
  refine (proj1 (proj2 (listRecursive_prunes treeFS (IgnoreHiddenFiles true New)
                   "/r"
                   (Directory (info "r" 1 493 1)
                      [(".git", Directory (info ".git" 1 493 3)
                                  [("cfg", File (info "cfg" 1 420 4))]);
                       ("a.go", File (info "a.go" 1 420 2));
                       ("sub", Directory (info "sub" 1 493 5)
                                 [("main.go", File (info "main.go" 1 420 6))])])
                   "/r/.git" (info ".git" 1 493 3)
                   [("cfg", File (info "cfg" 1 420 4))] true
                   _ _ _ _ _ _)) "/r/.git/cfg" _).
  - reflexivity.
  - apply (bool_decide_unpack _). vm_compute. reflexivity.
  - apply (list_elem_of_lookup_2 _ 1). reflexivity.
  - reflexivity.
  - reflexivity.
  - reflexivity.
  - apply (list_elem_of_lookup_2 _ 0). reflexivity.
Defined.

(** C4 fails as it is stated: the directory [/r/sub] is excluded by a
    filter hook that answers [ErrSkip], and its file is visited and
    listed all the same. *)
Lemma listRecursive_hook_skip_descends :
  runHooks (ffh (AddFilterHook notSub New)) (asDir (info "sub" 1 493 5))
           "/r/sub" = Skip
  ∧ (listRecursive treeFS (AddFilterHook notSub New) "/r").1 !! "/r/sub" = None
  ∧ "/r/sub/main.go" ∈ visited treeFS (AddFilterHook notSub New) "/r"
  ∧ (listRecursive treeFS (AddFilterHook notSub New) "/r").1 !! "/r/sub/main.go"
    = Some (asFile (info "main.go" 1 420 6)).
Proof.
  split; [reflexivity|]. split; [vm_compute; reflexivity|].
  split; [|vm_compute; reflexivity].
  apply (list_elem_of_lookup_2 _ 5). vm_compute. reflexivity.
Qed.

(** * Further properties *)

(** ** Diffs with nothing removed, nothing created, nothing changed *)

Lemma rangeOf_empty {A : Type} (o : Order) (l : loop) :
  rangeOf o l (∅ : gmap string A) = [].
Proof. apply Permutation_nil_r. by rewrite rangeOf_perm, map_to_list_empty. Qed.

Section EdgeDiffs.
Context `{Platform}.
Variable o : Order.
Variable w : Watcher.
Variable fileList : gmap string FileInfo.

(** With no created candidate the rename and move loop changes nothing. *)
Lemma corrOuter_no_creates (l : list (string * FileInfo))
    (removes : gmap string FileInfo) (res : list Event) :
  fold_left (corrOuter o) l (removes, ∅, res) = (removes, ∅, res).
Proof.
  induction l as [|kv l IH]; [done|].
  cbn [fold_left]. unfold corrOuter at 2. cbn [fst snd].
  by rewrite rangeOf_empty.
Qed.

Lemma removed_none :
  (∀ k, is_Some (files w !! k) → is_Some (fileList !! k)) →
  removed o w fileList = ∅.
Proof.
  intros Hsub. rewrite removed_spec. apply map_empty. intros k.
  apply map_lookup_filter_None.
  destruct (files w !! k) as [v|] eqn:Hk; [right|by left].
  intros v' _. simpl. destruct (Hsub k) as [x Hx]; [by rewrite Hk|].
  by rewrite Hx.
Qed.

Lemma created_none :
  (∀ k, is_Some (fileList !! k) → is_Some (files w !! k)) →
  (changed o w fileList).1 = ∅.
Proof.
  intros Hsub. rewrite changed_spec. simpl. apply map_empty. intros k.
  apply map_lookup_filter_None.
  destruct (fileList !! k) as [v|] eqn:Hk; [right|by left].
  intros v' _. simpl. destruct (Hsub k) as [x Hx]; [by rewrite Hk|].
  by rewrite Hx.
Qed.

Lemma diffEvents_nothing_removed :
  (∀ k, is_Some (files w !! k) → is_Some (fileList !! k)) →
  diffEvents o w fileList
  = (flat_map (inPlace w) (rangeOf o LoopFresh fileList)
     ++ (createOf <$> rangeOf o LoopRestCreates
                        (filter (λ kv, files w !! kv.1 = None) fileList)))%list.
Proof.
  intros Hsub. unfold diffEvents. rewrite (removed_none Hsub), changed_spec.
  unfold correlate. rewrite rangeOf_empty. cbn [fold_left].
  rewrite (append_loop createOf), rangeOf_empty. done.
Qed.

(** X2.  When every stored path is still in the fresh listing, the events
    [getDiff] computes are the Write and Chmod events of the listing
    followed by one Create for every fresh path that is not stored: no
    Remove, Rename or Move.  The Create events are, up to order, the
    fresh entries that are not stored. *)
Theorem getDiff_nothing_removed :
  (∀ k, is_Some (files w !! k) → is_Some (fileList !! k)) →
  diffEvents o w fileList
  = (flat_map (inPlace w) (rangeOf o LoopFresh fileList)
     ++ (createOf <$> rangeOf o LoopRestCreates
                        (filter (λ kv, files w !! kv.1 = None) fileList)))%list
  ∧ filter (λ e, EvOp e = Create) (diffEvents o w fileList)
    ≡ₚ createOf <$> map_to_list
                      (filter (λ kv, files w !! kv.1 = None) fileList).
Proof.
  intros Hsub. pose proof (diffEvents_nothing_removed Hsub) as Heq.
  split; [exact Heq|]. rewrite Heq, filter_app.
  rewrite (filter_none _ (flat_map _ _)).
  - simpl. rewrite <- rangeOf_perm with (o := o) (l := LoopRestCreates).
    generalize (rangeOf o LoopRestCreates
                  (filter (λ kv, files w !! kv.1 = None) fileList)).
    intros l. induction l as [|kv l IH]; [done|].
    rewrite fmap_cons, filter_cons_True by done. by rewrite IH.
  - intros e (k & v & old & _ & _ & [-> | ->])%inPlace_shape Hop;
      discriminate Hop.
Qed.

(** X3.  When every fresh path is stored, the events [getDiff] computes
    are the Write and Chmod events of the listing followed by one Remove
    for every stored path that the listing no longer has: no Create,
    Rename or Move. *)
Theorem getDiff_nothing_created :
  (∀ k, is_Some (fileList !! k) → is_Some (files w !! k)) →
  diffEvents o w fileList
  = (flat_map (inPlace w) (rangeOf o LoopFresh fileList)
     ++ (removeOf <$> rangeOf o LoopRestRemoves
                        (filter (λ kv, fileList !! kv.1 = None) (files w))))%list
  ∧ filter (λ e, EvOp e = Remove) (diffEvents o w fileList)
    ≡ₚ removeOf <$> map_to_list
                      (filter (λ kv, fileList !! kv.1 = None) (files w)).
Proof.
  intros Hsub.
  assert (Heq : diffEvents o w fileList
    = (flat_map (inPlace w) (rangeOf o LoopFresh fileList)
       ++ (removeOf <$> rangeOf o LoopRestRemoves
                          (filter (λ kv, fileList !! kv.1 = None) (files w))))%list).
  { unfold diffEvents.
    pose proof (created_none Hsub) as Hnone.
    destruct (changed o w fileList) as [creates res] eqn:Hch.
    simpl in Hnone. subst creates.
    assert (Hres : res = flat_map (inPlace w) (rangeOf o LoopFresh fileList)).
    { rewrite changed_spec in Hch. congruence. }
    unfold correlate. rewrite corrOuter_no_creates.
    rewrite (append_loop removeOf), rangeOf_empty. cbn [fold_left].
    by rewrite removed_spec, Hres. }
  split; [exact Heq|]. rewrite Heq, filter_app.
  rewrite (filter_none _ (flat_map _ _)).
  - simpl. rewrite <- rangeOf_perm with (o := o) (l := LoopRestRemoves).
    generalize (rangeOf o LoopRestRemoves
                  (filter (λ kv, fileList !! kv.1 = None) (files w))).
    intros l. induction l as [|kv l IH]; [done|].
    rewrite fmap_cons, filter_cons_True by done. by rewrite IH.
  - intros e (k & v & old & _ & _ & [-> | ->])%inPlace_shape Hop;
      discriminate Hop.
Qed.
End EdgeDiffs.

Section SameMapping.
Context `{Platform}.
Variable o : Order.

Lemma diffEvents_same (w : Watcher) : diffEvents o w (files w) = [].
Proof.
    rewrite diffEvents_nothing_removed by done.
    assert (Hf : filter (λ kv : string * FileInfo, files w !! kv.1 = None)
                        (files w) = ∅).
    { apply map_empty. intros k. apply map_lookup_filter_None.
      destruct (files w !! k) as [v|] eqn:Hk; [right|by left].
      intros v' Hv'. simpl. congruence. }
    rewrite Hf, rangeOf_empty, app_nil_r.
    assert (Hin : ∀ kv, kv ∈ rangeOf o LoopFresh (files w) → inPlace w kv = []).
    { intros [k v] Hkv%elem_of_rangeOf. unfold inPlace. simpl. rewrite Hkv.
      by rewrite !decide_False by (intros Hne; by apply Hne). }
    induction (rangeOf o LoopFresh (files w)) as [|kv l IH]; [done|].
    simpl. rewrite Hin by left. apply IH. intros kv' Hkv'. apply Hin. by right.
Qed.

Lemma filterRes_nil (wops : option (gset Op)) : filterRes wops [] = [].
Proof.
  unfold filterRes. destruct wops as [s|]; [|done].
  by destruct (decide (0 < size s)).
Qed.

(** X1.  The diff of the stored mapping against itself is empty, whatever
    the order of iteration and the operation filter. *)
Theorem getDiff_same_mapping (w : Watcher) : getDiff o w (files w) = [].
Proof. unfold getDiff. by rewrite diffEvents_same, filterRes_nil. Qed.
End SameMapping.


(** ** Every created and every removed path is reported *)

Lemma count_createOf (l : list (string * FileInfo)) (p : string) :
  length (filter (λ e, Path e = p) (createOf <$> l))
  = length (filter (λ kv, kv.1 = p) l).
Proof.
  induction l as [|kv l IH]; [done|].
  rewrite fmap_cons, !filter_cons. simpl.
  destruct (decide (kv.1 = p)); simpl; by rewrite IH.
Qed.

Section Reported.
Context `{Platform}.
Variable o : Order.
Variable w : Watcher.
Variable fileList : gmap string FileInfo.

Lemma keptOrPaired_step (removes0 : gmap string FileInfo) (st : corrState)
    (kv : string * FileInfo) :
  keptOrPaired removes0 st → keptOrPaired removes0 (corrOuter o st kv).
Proof.
  destruct st as [[removes creates] res]. intros Hst k v Hk.
  unfold corrOuter. cbn [fst snd]. rewrite corrInner_loop. cbn [fst snd].
  destruct (Hst k v Hk) as [Hin | (e & He & Hp & Hold)].
  - simpl in Hin.
    destruct (hits kv.2 (rangeOf o (LoopCreates kv.1) creates)) as [|h hs] eqn:Hh.
    + left. by rewrite decide_True.
    + rewrite decide_False by done.
      destruct (decide (k = kv.1)) as [->|Hne].
      * right. exists (evOf kv.1 kv.2 h). split; [|split].
        -- apply elem_of_app. right. left.
        -- unfold isPair, evOf. simpl. case_decide; tauto.
        -- done.
      * left. by rewrite lookup_delete_ne.
  - right. exists e. split; [|done]. apply elem_of_app. by left.
Qed.

Lemma keptOrPaired_correlate (removes0 creates0 : gmap string FileInfo)
    (res0 : list Event) :
  keptOrPaired removes0 (correlate o removes0 creates0 res0).
Proof.
  unfold correlate.
  assert (Hstart : keptOrPaired removes0 (removes0, creates0, res0))
    by (intros k v Hk; by left).
  revert Hstart. generalize (removes0, creates0, res0).
  induction (rangeOf o LoopRemoves removes0) as [|kv l IH]; intros st Hst;
    [done|].
  cbn [fold_left]. by apply IH, keptOrPaired_step.
Qed.

(** [diffEvents] in its four parts, with what the rename and move loop
    leaves. *)
Lemma diffEvents_parts :
  ∃ removes creates evs,
    diffEvents o w fileList
    = (flat_map (inPlace w) (rangeOf o LoopFresh fileList)
       ++ evs
       ++ (createOf <$> rangeOf o LoopRestCreates creates)
       ++ (removeOf <$> rangeOf o LoopRestRemoves removes))%list
    ∧ corrInv (removed o w fileList) (changed o w fileList).1 []
              removes creates evs
    ∧ keptOrPaired (removed o w fileList)
        (removes, creates,
         (flat_map (inPlace w) (rangeOf o LoopFresh fileList) ++ evs)%list).
Proof.
  unfold diffEvents.
  pose proof (keptOrPaired_correlate (removed o w fileList)
                (changed o w fileList).1 (changed o w fileList).2) as Hkept.
  destruct (changed o w fileList) as [creates0 res0] eqn:Hch.
  assert (Hres0 : res0 = flat_map (inPlace w) (rangeOf o LoopFresh fileList)).
  { rewrite changed_spec in Hch. congruence. }
  destruct (correlate_spec o (removed o w fileList) creates0 res0)
    as (removes & creates & evs & Hcorr & Hinv).
  cbn [fst snd] in Hkept. rewrite Hcorr in Hkept |- *.
  exists removes, creates, evs. split; [|split; [done|by rewrite <- Hres0]].
  rewrite (append_loop createOf), (append_loop removeOf).
  rewrite Hres0. by rewrite <- !app_assoc.
Qed.

(** X4.  A fresh path that is not stored is the [Path] of exactly one
    event of the diff, and that event is its Create or a Rename or Move
    onto it. *)
Theorem created_reported_once (c : string) (ic : FileInfo) :
  fileList !! c = Some ic → files w !! c = None →
  length (filter (λ e, Path e = c) (diffEvents o w fileList)) = 1
  ∧ ∀ e, e ∈ diffEvents o w fileList → Path e = c →
         e = createOf (c, ic)
         ∨ ∃ r ir, e = evOf r ir (c, ic) ∧ files w !! r = Some ir
                   ∧ fileList !! r = None ∧ sameFile ir ic = true.
Proof.
  intros Hc Hc'.
  destruct diffEvents_parts
    as (removes & creates & evs & Heq & [_ Hrem Hcre Hev _ Hcount _] & _).
  assert (Hcreated : (changed o w fileList).1 !! c = Some ic)
    by (by apply created_lookup).
  split.
  - rewrite Heq, !filter_app, !length_app.
    rewrite (filter_none _ (flat_map _ _)), (filter_none _ (removeOf <$> _)).
    + rewrite count_createOf, count_key by apply NoDup_rangeOf.
      specialize (Hcount c). unfold present in Hcount.
      rewrite Hcreated in Hcount. simpl.
      destruct (decide (c ∈ (rangeOf o LoopRestCreates creates).*1))
        as [Hin|Hnin].
      * apply list_elem_of_fmap in Hin as [[k v] [Hk Hin]]. simpl in Hk.
        subst k. apply elem_of_rangeOf in Hin. rewrite Hin in Hcount. lia.
      * destruct (creates !! c) as [v|] eqn:Hv; [|lia].
        exfalso. apply Hnin. apply list_elem_of_fmap. exists (c, v).
        split; [done|]. by apply elem_of_rangeOf.
    + intros e [[k v] [-> Hkv]]%list_elem_of_fmap Hp. simpl in Hp. subst k.
      apply elem_of_rangeOf, Hrem, removed_lookup in Hkv as [? ?]. congruence.
    + intros e (k & v & old & Hk & Hk' & [-> | ->])%inPlace_shape Hp;
        simpl in Hp; subst k; congruence.
  - intros e He Hp. apply diffEvents_sound in He.
    destruct He as [p old new Ho|p old new Ho|p1 i1 p2 i2 H1 H1' H2 H2' Hs
                   |p i Hi|p i Hi Hi'];
      unfold evOf, createOf, removeOf in *; simpl in *; subst.
    + congruence.
    + congruence.
    + right. exists p1, i1. assert (i2 = ic) by congruence. by subst i2.
    + left. congruence.
    + congruence.
Qed.

(** X5.  A stored path that the fresh listing no longer has is reported:
    by its Remove, or as the [OldPath] of a Rename or Move, and never by
    both. *)
Theorem removed_reported (r : string) (ir : FileInfo) :
  files w !! r = Some ir → fileList !! r = None →
  (removeOf (r, ir) ∈ diffEvents o w fileList
   ∨ ∃ e, e ∈ diffEvents o w fileList ∧ isPair e ∧ OldPath e = r)
  ∧ ¬ (removeOf (r, ir) ∈ diffEvents o w fileList
       ∧ ∃ e, e ∈ diffEvents o w fileList ∧ isPair e ∧ OldPath e = r).
Proof.
  intros Hr Hr'.
  destruct diffEvents_parts
    as (removes & creates & evs & Heq & [_ Hrem Hcre Hev Hcons _ _] & Hkept).
  assert (Hremoved : removed o w fileList !! r = Some ir)
    by (by apply removed_lookup).
  (* the pairs are among the events of the loop *)
  assert (Hpair : ∀ e, e ∈ diffEvents o w fileList → isPair e → e ∈ evs).
  { intros e He Hp. rewrite Heq, !elem_of_app in He.
    destruct He as [He | [He | [He | He]]]; [|done| |].
    - apply inPlace_shape in He as (k & v & old & _ & _ & [-> | ->]);
        destruct Hp as [Hp|Hp]; discriminate Hp.
    - apply list_elem_of_fmap in He as [kv [-> _]].
      destruct Hp as [Hp|Hp]; discriminate Hp.
    - apply list_elem_of_fmap in He as [kv [-> _]].
      destruct Hp as [Hp|Hp]; discriminate Hp. }
  (* a Remove is there for what is left of [removes] *)
  assert (Hrm : removeOf (r, ir) ∈ diffEvents o w fileList
                ↔ removes !! r = Some ir).
  { rewrite Heq, !elem_of_app. split.
    - intros [He | [He | [He | He]]].
      + apply inPlace_shape in He as (k & v & old & _ & _ & [He | He]);
          discriminate He.
      + apply Hev in He as (p1 & i1 & p2 & i2 & He & _).
        unfold removeOf, evOf in He. simpl in He.
        case_decide; discriminate He.
      + apply list_elem_of_fmap in He as [kv [He _]]. discriminate He.
      + apply list_elem_of_fmap in He as [[k v] [He Hkv]].
        unfold removeOf in He. simpl in He. inversion He; subst k v.
        by apply elem_of_rangeOf in Hkv.
    - intros Hin. do 3 right. apply list_elem_of_fmap. exists (r, ir).
      split; [done|]. by apply elem_of_rangeOf. }
  split.
  - destruct (Hkept r ir Hremoved) as [Hin | (e & He & Hp & Hold)].
    + left. by apply Hrm.
    + right. exists e. split; [|done]. rewrite Heq, app_assoc.
      apply elem_of_app. by left.
  - intros [Hin (e & He & Hp & Hold)]. apply Hrm in Hin.
    apply Hpair in He; [|done]. apply Hcons in He. congruence.
Qed.

(** X6.  A Create is only reported for a path that is the same file as
    no removed candidate: a file that disappears from one path and
    appears at another is never reported as a Remove and a Create, how
    many paths share its identity. *)
Theorem create_has_no_match (e : Event) (r : string) (ir : FileInfo) :
  e ∈ diffEvents o w fileList → EvOp e = Create →
  files w !! r = Some ir → fileList !! r = None →
  sameFile ir (Info e) = false.
Proof.
  intros He Hop Hr Hr'.
  destruct diffEvents_parts
    as (removes & creates & evs & Heq & [_ _ _ Hev _ _ Hdone] & _).
  assert (Hremoved : removed o w fileList !! r = Some ir)
    by (by apply removed_lookup).
  rewrite Heq, !elem_of_app in He.
  destruct He as [He | [He | [He | He]]].
  - apply inPlace_shape in He as (k & v & old & _ & _ & [-> | ->]);
      discriminate Hop.
  - apply Hev in He as (p1 & i1 & p2 & i2 & -> & _).
    unfold evOf in Hop. simpl in Hop. case_decide; discriminate Hop.
  - apply list_elem_of_fmap in He as [[k v] [-> Hkv]].
    apply elem_of_rangeOf in Hkv. simpl.
    by apply (Hdone r ir Hremoved (not_elem_of_nil _) k v).
  - apply list_elem_of_fmap in He as [kv [-> _]]. discriminate Hop.
Qed.
End Reported.

(** ** What a recursive listing holds *)

Lemma prefix_trans (a b c : string) :
  String.prefix a b = true → String.prefix b c = true →
  String.prefix a c = true.
Proof.
  revert b c. induction a as [|x a IH]; intros b c; [intros; apply prefix_nil|].
  destruct b as [|y b]; [done|]. destruct c as [|z c]; [done|].
  rewrite !prefix_cons. repeat case_decide; try done; try congruence.
  apply IH.
Qed.

Lemma prefix_Join (path name : string) :
  String.prefix path (Join path name) = true.
Proof. unfold Join. case_decide as Hp; [subst path|]; apply prefix_app. Qed.

(** Every path of a tree starts with the path of its root. *)
Lemma subnodes_prefix (n : Node) :
  ∀ path p n', (p, n') ∈ subnodes path n → HasPrefix p path = true.
Proof.
  unfold HasPrefix.
  induction n as [i|i es IH|i e|e] using Node_nested_ind; intros path p n' Hin.
  - apply list_elem_of_singleton in Hin. inversion Hin. apply prefix_refl.
  - cbn [subnodes] in Hin. apply elem_of_cons in Hin as [Hin|Hin].
    + inversion Hin. apply prefix_refl.
    + apply elem_of_flat_map in Hin as (e & He & Hin).
      rewrite Forall_forall in IH.
      apply (prefix_trans _ (Join path e.1)); [apply prefix_Join|].
      by apply (IH e He _ p n').
  - apply list_elem_of_singleton in Hin. inversion Hin. apply prefix_refl.
  - apply list_elem_of_singleton in Hin. inversion Hin. apply prefix_refl.
Qed.

Section Listed.
Context `{Platform}.
Variable w : Watcher.

Lemma excluded_false (path : string) (isHidden : bool) :
  excluded w path isHidden = false →
  (path ∉ ignored w) ∧ (ignoreHidden w = true → isHidden = false).
Proof.
  unfold excluded. intros [Hi Hh]%orb_false_elim.
  apply bool_decide_eq_false in Hi. split; [done|].
  intros Hon. rewrite Hon in Hh. done.
Qed.

(** What one call of the callback can add to the listing. *)
Lemma listWalkFn_adds (path : string) (lstat : result FileInfo)
    (fileList : gmap string FileInfo) (k : string) (v : FileInfo) :
  (listWalkFn w path lstat fileList).1 !! k = Some v →
  fileList !! k = Some v
  ∨ (k = path ∧ lstat = Ok v ∧ admitted w path v).
Proof.
  unfold listWalkFn. destruct lstat as [i|e]; [|by left].
  destruct (runHooks (ffh w) i path) eqn:Hh; try (by left).
  destruct (isHiddenFile path) as [h|e] eqn:Hi; [|by left].
  destruct (excluded w path h) eqn:He.
  - destruct (IsDir i); by left.
  - simpl. destruct (decide (k = path)) as [->|Hne].
    + rewrite lookup_insert_eq. intros [= <-]. right.
      apply excluded_false in He as [? ?]. repeat split; eauto.
    + rewrite lookup_insert_ne by done. by left.
Qed.

(** The walk adds to the listing only nodes of the tree, each under its
    path and with its own metadata, that the filtering chain admits. *)
Lemma walk_listed (n : Node) :
  ∀ path fileList k v,
    (walk (listWalkFn w) path n fileList).1 !! k = Some v →
    fileList !! k = Some v
    ∨ (∃ n', (k, n') ∈ subnodes path n ∧ nodeInfo n' = Ok v) ∧ admitted w k v.
Proof.
  induction n as [i|i es IH|i e|e] using Node_nested_ind;
    intros path fileList k v Hk.
  - cbn [walk] in Hk.
    apply listWalkFn_adds in Hk as [?|(-> & [= <-] & Ha)]; [by left|].
    right. split; [|done]. exists (File i). split; [left|done].
  - assert (Hroot : (listWalkFn w path (Ok (asDir i)) fileList).1 !! k
                    = Some v →
              fileList !! k = Some v
              ∨ (∃ n', (k, n') ∈ subnodes path (Directory i es)
                       ∧ nodeInfo n' = Ok v) ∧ admitted w k v).
    { intros [?|(-> & [= <-] & Ha)]%listWalkFn_adds; [by left|].
      right. split; [|done]. exists (Directory i es). split; [left|done]. }
    destruct (walk_dir (listWalkFn w) path i es fileList) as [Hw | Hw];
      rewrite Hw in Hk; [by apply Hroot|].
    assert (Hloop : (listWalkFn w path (Ok (asDir i)) fileList).1 !! k = Some v
              ∨ (∃ n', (k, n') ∈ flat_map
                                   (λ e, subnodes (Join path e.1) e.2) es
                       ∧ nodeInfo n' = Ok v) ∧ admitted w k v).
    { revert Hk. generalize (listWalkFn w path (Ok (asDir i)) fileList).1.
      clear Hw Hroot.
      induction IH as [|e rest He _ IHrest]; intros m Hk; [by left|].
      assert (Hchild : (walk (listWalkFn w) (Join path e.1) e.2 m).1 !! k
                       = Some v →
                m !! k = Some v
                ∨ (∃ n', (k, n') ∈ flat_map
                                     (λ e, subnodes (Join path e.1) e.2)
                                     (e :: rest)
                         ∧ nodeInfo n' = Ok v) ∧ admitted w k v).
      { intros [?|[(n' & Hn' & Hi) Ha]]%He; [by left|].
        right. split; [|done]. exists n'. split; [|done].
        cbn [flat_map]. apply elem_of_app. by left. }
      destruct (walkEntries_cons (walk (listWalkFn w)) path e rest m)
        as [Hw | Hw]; rewrite Hw in Hk; [by apply Hchild|].
      apply IHrest in Hk as [Hk|[(n' & Hn' & Hi) Ha]]; [by apply Hchild|].
      right. split; [|done]. exists n'. split; [|done].
      cbn [flat_map]. apply elem_of_app. by right. }
    destruct Hloop as [Hm|[(n' & Hn' & Hi) Ha]]; [by apply Hroot|].
    right. split; [|done]. exists n'. split; [by right|done].
  - cbn [walk] in Hk.
    apply listWalkFn_adds in Hk as [?|(_ & Hl & _)]; [by left|discriminate Hl].
  - cbn [walk] in Hk.
    apply listWalkFn_adds in Hk as [?|(_ & Hl & _)]; [by left|discriminate Hl].
Qed.
End Listed.

Lemma insNode_other (l : list (string * Node)) (m : gmap string FileInfo)
    (k : string) :
  k ∉ l.*1 → fold_left insNode l m !! k = m !! k.
Proof.
  revert m. induction l as [|[p n] l IH]; intros m Hk; [done|].
  rewrite fmap_cons, not_elem_of_cons in Hk. destruct Hk as [Hne Hk].
  cbn [fold_left]. rewrite IH by done. unfold insNode. simpl.
  destruct (nodeInfo n); [by apply lookup_insert_ne | done].
Qed.

Lemma insNode_elem (l : list (string * Node)) (m : gmap string FileInfo)
    (k : string) (n : Node) (v : FileInfo) :
  NoDup l.*1 → (k, n) ∈ l → nodeInfo n = Ok v →
  fold_left insNode l m !! k = Some v.
Proof.
  revert m. induction l as [|[p n0] l IH]; intros m Hnd Hin Hv.
  - by apply elem_of_nil in Hin.
  - rewrite fmap_cons in Hnd. apply NoDup_cons in Hnd as [Hp Hnd].
    cbn [fold_left]. apply elem_of_cons in Hin as [[= -> ->]|Hin].
    + rewrite insNode_other by done. unfold insNode. simpl. rewrite Hv.
      apply lookup_insert_eq.
    + by apply IH.
Qed.

Lemma insNode_size (l : list (string * Node)) (m : gmap string FileInfo) :
  NoDup l.*1 → (∀ pn, pn ∈ l → m !! pn.1 = None) →
  (∀ pn, pn ∈ l → ∃ v, nodeInfo pn.2 = Ok v) →
  size (fold_left insNode l m) = length l + size m.
Proof.
  revert m. induction l as [|[p n] l IH]; intros m Hnd Hm Hok; [done|].
  rewrite fmap_cons in Hnd. apply NoDup_cons in Hnd as [Hp Hnd].
  cbn [fold_left]. destruct (Hok (p, n)) as [v Hv]; [left|].
  unfold insNode at 2. simpl in *. rewrite Hv.
  rewrite IH; [|done| |].
  - rewrite map_size_insert_None by (apply (Hm (p, n)); left). lia.
  - intros [q n'] Hq. simpl. rewrite lookup_insert_ne; [apply (Hm (q, n')); by right|].
    intros <-. apply Hp. apply list_elem_of_fmap. by exists (p, n').
  - intros pn Hpn. apply Hok. by right.
Qed.

Lemma readable_subnodes (n : Node) :
  ∀ path pn, readable n = true → pn ∈ subnodes path n →
             ∃ v, nodeInfo pn.2 = Ok v.
Proof.
  induction n as [i|i es IH|i e|e] using Node_nested_ind;
    intros path pn Hr Hin; try discriminate Hr.
  - apply list_elem_of_singleton in Hin as ->. by eexists.
  - cbn [subnodes] in Hin. apply elem_of_cons in Hin as [->|Hin]; [by eexists|].
    apply elem_of_flat_map in Hin as (e & He & Hin).
    rewrite Forall_forall in IH. apply (IH e He (Join path e.1)); [|done].
    cbn [readable] in Hr. rewrite forallb_forall in Hr.
    apply Hr. by apply list_elem_of_In.
Qed.

Lemma NoDup_fst_agree {A B : Type} (l : list (A * B)) (k : A) (a b : B) :
  NoDup l.*1 → (k, a) ∈ l → (k, b) ∈ l → a = b.
Proof.
  induction l as [|[k' c] l IH]; intros Hnd Ha Hb; [by apply elem_of_nil in Ha|].
  rewrite fmap_cons in Hnd. apply NoDup_cons in Hnd as [Hk Hnd].
  apply elem_of_cons in Ha as [Ha|Ha]; apply elem_of_cons in Hb as [Hb|Hb].
  - congruence.
  - exfalso. apply Hk. apply list_elem_of_fmap. exists (k, b).
    split; [simpl; congruence|done].
  - exfalso. apply Hk. apply list_elem_of_fmap. exists (k, a).
    split; [simpl; congruence|done].
  - by apply IH.
Qed.

Section WholeTree.
Context `{Platform}.
Variable fs : FileSystem.
Variable w : Watcher.

Lemma admitted_listWalkFn (path : string) (i : FileInfo)
    (fileList : gmap string FileInfo) :
  admitted w path i →
  listWalkFn w path (Ok i) fileList = (<[path := i]> fileList, None).
Proof.
  intros (Hh & Hi & h & Hhid & Hoff). unfold listWalkFn. rewrite Hh, Hhid.
  unfold excluded. rewrite bool_decide_eq_false_2 by done. simpl.
  destruct (ignoreHidden w); [by rewrite Hoff|done].
Qed.

(** On a readable tree all of whose nodes the chain admits, the walk
    stores every node, in the order of the walk. *)
Lemma walk_all (n : Node) :
  ∀ path fileList,
    readable n = true →
    (∀ p n' i, (p, n') ∈ subnodes path n → nodeInfo n' = Ok i →
               admitted w p i) →
    walk (listWalkFn w) path n fileList
    = (fold_left insNode (subnodes path n) fileList, None).
Proof.
  induction n as [i|i es IH|i e|e] using Node_nested_ind;
    intros path fileList Hr Hadm; try discriminate Hr.
  - cbn [walk subnodes fold_left]. unfold insNode. cbn [nodeInfo fst snd].
    apply admitted_listWalkFn. apply (Hadm path (File i)); [left|done].
  - cbn [walk subnodes fold_left]. unfold insNode at 2. cbn [nodeInfo fst snd].
    rewrite admitted_listWalkFn
      by (apply (Hadm path (Directory i es)); [left|done]).
    assert (Hes : ∀ p n' i', (p, n') ∈ flat_map
                               (λ e, subnodes (Join path e.1) e.2) es →
                             nodeInfo n' = Ok i' → admitted w p i').
    { intros p n' i' Hin. apply Hadm. cbn [subnodes]. by right. }
    cbn [readable] in Hr. clear Hadm.
    generalize (<[path := asDir i]> fileList).
    induction IH as [|e rest He _ IHrest]; intros m; [done|].
    cbn [forallb] in Hr. apply andb_prop in Hr as [Hre Hrrest].
    cbn [walkEntries flat_map]. rewrite He; [| done |].
    + rewrite fold_left_app. apply IHrest; [done|].
      intros p n' i' Hin. apply Hes. cbn [flat_map]. apply elem_of_app. by right.
    + intros p n' i' Hin. apply Hes. cbn [flat_map]. apply elem_of_app. by left.
Qed.

Lemma listRecursive_listed (root k : string) (v : FileInfo) :
  (listRecursive fs w root).1 !! k = Some v →
  admitted w k v
  ∧ HasPrefix k root = true
  ∧ ∃ tree n, lookupNode fs root = Some tree
              ∧ (k, n) ∈ subnodes root tree ∧ nodeInfo n = Ok v.
Proof.
  unfold listRecursive, Walk. destruct (lookupNode fs root) as [tree|] eqn:Ht.
  - intros Hk.
    assert (Hw : (walk (listWalkFn w) root tree ∅).1 !! k = Some v).
    { destruct (walk (listWalkFn w) root tree ∅) as [m err].
      by destruct (decide (err = Some SkipDir)). }
    apply walk_listed in Hw as [Hw|[(n & Hn & Hv) Ha]];
      [by rewrite lookup_empty in Hw|].
    split; [done|]. split; [by apply (subnodes_prefix tree root k n)|].
    by exists tree, n.
  - simpl. intros Hk. by rewrite lookup_empty in Hk.
Qed.

(** X7.  Every entry of a recursive listing is a node of the walked tree,
    stored under its path with its own metadata; the filtering chain
    admits it and its key starts with the path of the root. *)
Theorem listRecursive_entries (root k : string) (v : FileInfo) :
  (listRecursive fs w root).1 !! k = Some v →
  admitted w k v
  ∧ HasPrefix k root = true
  ∧ ∃ tree n, lookupNode fs root = Some tree
              ∧ (k, n) ∈ subnodes root tree ∧ nodeInfo n = Ok v.
Proof. apply listRecursive_listed. Qed.

(** X8.  On a readable tree with distinct paths all of whose nodes the
    filtering chain admits, a recursive listing succeeds and holds
    exactly the nodes of the tree, each under its path with its own
    metadata. *)
Theorem listRecursive_whole_tree (root : string) (tree : Node) :
  lookupNode fs root = Some tree →
  readable tree = true →
  NoDup (subnodes root tree).*1 →
  (∀ p n i, (p, n) ∈ subnodes root tree → nodeInfo n = Ok i →
            admitted w p i) →
  (listRecursive fs w root).2 = None
  ∧ (∀ k v, (listRecursive fs w root).1 !! k = Some v
            ↔ ∃ n, (k, n) ∈ subnodes root tree ∧ nodeInfo n = Ok v)
  ∧ size (listRecursive fs w root).1 = length (subnodes root tree).
Proof.
  intros Ht Hr Hnd Hadm.
  assert (Hl : listRecursive fs w root
               = (fold_left insNode (subnodes root tree) ∅, None)).
  { unfold listRecursive, Walk. rewrite Ht, walk_all by done.
    by rewrite decide_False. }
  rewrite Hl. cbn [fst snd]. split; [done|]. split.
  - intros k v. split.
    + intros Hk. replace (fold_left insNode (subnodes root tree) ∅)
        with (listRecursive fs w root).1 in Hk by (by rewrite Hl).
      apply listRecursive_listed in Hk as (_ & _ & t & n & Ht' & Hn & Hv).
      exists n. split; [congruence|done].
    + intros (n & Hn & Hv). by apply (insNode_elem _ _ k n).
  - rewrite insNode_size; [by rewrite map_size_empty, Nat.add_0_r|done| |].
    + intros pn _. apply lookup_empty.
    + intros pn Hpn. by apply (readable_subnodes tree root).
Qed.
End WholeTree.

(** ** Registering, then removing *)

Lemma beforeLastSlash_app (p n : string) :
  beforeLastSlash n = None →
  beforeLastSlash (p +:+ String slash n) = Some p.
Proof.
  intros Hn. induction p as [|c p IH].
  - change ("" +:+ String slash n) with (String slash n).
    cbn [beforeLastSlash]. rewrite Hn.
    by destruct (decide (slash = slash)).
  - change (String c p +:+ String slash n)
      with (String c (p +:+ String slash n)).
    cbn [beforeLastSlash]. by rewrite IH.
Qed.

(** The parent of a path joined with a base name is the path. *)
Lemma Dir_Join (dir name : string) :
  dir ≠ "" → beforeLastSlash name = None → Dir (Join dir name) = dir.
Proof.
  intros Hd Hn. unfold Join, Dir. case_decide as Hroot.
  - subst dir. change ("/" +:+ name) with ("" +:+ String slash name).
    by rewrite beforeLastSlash_app.
  - change (dir +:+ "/" +:+ name) with (dir +:+ String slash name).
    rewrite beforeLastSlash_app by done. by destruct dir.
Qed.

Section RoundTrips.
Context `{Platform}.
Variable fs : FileSystem.

(** X9.  [Remove] after a successful [Add] of a directory takes out of
    the stored mapping the directory and every entry whose parent it is,
    so everything the [Add] listed, and takes the root out of the
    registration set; the other stored entries are as before the [Add]. *)
Theorem Remove_after_Add (w : Watcher) (name P : string) (isHidden : bool)
    (stat : FileInfo) (fInfoList : list FileInfo) :
  fsAbs fs name = Ok P → P ≠ "" →
  isHiddenFile P = Ok isHidden → excluded w P isHidden = false →
  Stat fs P = Ok stat → IsDir stat = true →
  ReadDir fs P = Ok fInfoList →
  (∀ fInfo, fInfo ∈ fInfoList → Name fInfo ≠ "") →
  (∀ fInfo, fInfo ∈ fInfoList → beforeLastSlash (Name fInfo) = None) →
  (∀ fInfo, fInfo ∈ fInfoList → ∃ b, childVerdict w P fInfo = Ok b) →
  (Add fs name w).2 = None
  ∧ (Watcher_Remove fs name (Add fs name w).1).2 = None
  ∧ names (Watcher_Remove fs name (Add fs name w).1).1 = delete P (names w)
  ∧ ∀ k, files (Watcher_Remove fs name (Add fs name w).1).1 !! k
         = if decide (k = P ∨ Dir k = P) then None else files w !! k.
Proof.
  intros Habs HP Hhid Hex Hstat Hdir Hread Hnonempty Hnames Hok.
  set (key := λ fInfo : FileInfo, Join P (Name fInfo)).
  set (fileList := store key (kept w P fInfoList) {[P := stat]}).
  assert (Hlist : Watcher_list fs w P = Ok fileList).
  { unfold Watcher_list. rewrite Hstat, Hdir, Hread. simpl.
    by apply listEntries_ok. }
  assert (Hparent : ∀ k, k ∈ key <$> kept w P fInfoList → Dir k = P).
  { intros k [fInfo [-> Hin]]%list_elem_of_fmap. unfold key.
    apply Dir_Join; [done|]. apply Hnames. unfold kept in Hin.
    by apply list_elem_of_filter in Hin as [_ Hin]. }
  assert (Hfl : ∀ k, fileList !! k
                     = if decide (k ∈ key <$> kept w P fInfoList)
                       then fileList !! k
                       else ({[P := stat]} : gmap string FileInfo) !! k).
  { intros k. case_decide; [done|]. by apply store_other. }
  assert (Hadd : Add fs name w
                 = (setNames (setFiles w (fileList ∪ files w))
                             (<[P := false]> (names w)), None)).
  { unfold Add. by rewrite Habs, Hhid, Hex, Hlist. }
  assert (HrootP : (fileList ∪ files w) !! P = Some stat).
  { apply lookup_union_Some_l. rewrite Hfl.
    case_decide as Hin; [|apply lookup_singleton_eq].
    exfalso. apply list_elem_of_fmap in Hin as [fInfo [Heq Hin]].
    unfold kept in Hin. apply list_elem_of_filter in Hin as [_ Hin].
    symmetry in Heq. by apply Join_ne in Heq; [|apply Hnonempty]. }
  rewrite Hadd. cbn [fst snd]. unfold Watcher_Remove. rewrite Habs.
  cbn [files names setNames setFiles]. rewrite HrootP, Hdir. cbn [negb fst snd].
  cbn [files names setNames setFiles].
  split; [done|]. split; [done|]. split; [apply delete_insert_eq|].
  intros k. case_decide as Hk.
  - apply map_lookup_filter_None.
    destruct (decide (k = P)) as [->|Hne]; [left; apply lookup_delete_eq|].
    right. intros x _. simpl. destruct Hk; [done|tauto].
  - assert (Hne : k ≠ P) by tauto. assert (Hd : Dir k ≠ P) by tauto.
    assert (Hk' : (fileList ∪ files w) !! k = files w !! k).
    { apply lookup_union_r. rewrite Hfl. case_decide as Hin.
      - by apply Hparent in Hin.
      - by apply lookup_singleton_ne. }
    destruct (files w !! k) as [v|] eqn:Hv.
    + apply map_lookup_filter_Some. split; [|done].
      by rewrite lookup_delete_ne, Hk'.
    + apply map_lookup_filter_None. left. by rewrite lookup_delete_ne, Hk'.
Qed.

(** X10.  [RemoveRecursive] after a successful [AddRecursive] that listed
    the root takes out of the stored mapping every entry the listing
    added and takes the root out of the registration set; entries whose
    key does not start with the root path are as before. *)
Theorem RemoveRecursive_after_AddRecursive (w : Watcher) (name P : string)
    (tree : Node) (i : FileInfo) :
  fsAbs fs name = Ok P →
  lookupNode fs P = Some tree →
  NoDup (subnodes P tree).*1 →
  (listRecursive fs w P).2 = None →
  (listRecursive fs w P).1 !! P = Some i →
  (AddRecursive fs name w).2 = None
  ∧ (RemoveRecursive fs name (AddRecursive fs name w).1).2 = None
  ∧ names (RemoveRecursive fs name (AddRecursive fs name w).1).1
    = delete P (names w)
  ∧ (∀ k, is_Some ((listRecursive fs w P).1 !! k) →
          files (RemoveRecursive fs name (AddRecursive fs name w).1).1 !! k
          = None)
  ∧ (∀ k, HasPrefix k P = false →
          files (RemoveRecursive fs name (AddRecursive fs name w).1).1 !! k
          = files w !! k).
Proof.
  intros Habs Ht Hnd Herr Hroot.
  destruct (listRecursive fs w P) as [fileList err] eqn:Hl.
  cbn [fst snd] in Herr, Hroot. subst err.
  assert (Hkeys : ∀ k v, fileList !! k = Some v →
            HasPrefix k P = true
            ∧ ∃ n, (k, n) ∈ subnodes P tree ∧ nodeInfo n = Ok v).
  { intros k v Hk.
    replace fileList with (listRecursive fs w P).1 in Hk by (by rewrite Hl).
    apply listRecursive_listed in Hk as (_ & Hp & t & n & Ht' & Hn & Hv).
    split; [done|]. exists n. split; [congruence|done]. }
  assert (Hadd : AddRecursive fs name w
                 = (setNames (setFiles w (fileList ∪ files w))
                             (<[P := true]> (names w)), None)).
  { unfold AddRecursive. by rewrite Habs, Hl. }
  rewrite Hadd. cbn [fst snd]. unfold RemoveRecursive. rewrite Habs.
  cbn [files names setNames setFiles].
  rewrite (lookup_union_Some_l _ _ _ _ Hroot).
  assert (Hother : ∀ k, HasPrefix k P = false → fileList !! k = None).
  { intros k Hp. destruct (fileList !! k) as [v|] eqn:Hk; [|done].
    apply Hkeys in Hk as [Hp' _]. congruence. }
  destruct (IsDir i) eqn:Hdir; cbn [negb fst snd files names setNames setFiles].
  - split; [done|]. split; [done|]. split; [apply delete_insert_eq|]. split.
    + intros k [v Hk]. apply map_lookup_filter_None. right.
      intros x _. simpl. apply Hkeys in Hk as [-> _]. done.
    + intros k Hp.
      assert (Hk' : (fileList ∪ files w) !! k = files w !! k)
        by (by apply lookup_union_r, Hother).
      destruct (files w !! k) as [v|] eqn:Hv.
      * apply map_lookup_filter_Some. by rewrite Hk'.
      * apply map_lookup_filter_None. left. by rewrite Hk'.
  - (* the root is not a directory: the listing holds the root alone *)
    assert (Hleaf : ∀ k, is_Some (fileList !! k) → k = P).
    { intros k [v Hk]. apply Hkeys in Hk as [_ (n & Hn & Hv)].
      destruct (Hkeys P i Hroot) as [_ (n0 & Hn0 & Hi)].
      assert (Hhead : (P, tree) ∈ subnodes P tree)
        by (destruct tree; left).
      assert (n0 = tree) by (by apply (NoDup_fst_agree _ P) with (1 := Hnd)).
      subst n0. destruct tree as [i0|i0 es|i0 e|e]; simpl in Hi;
        try (injection Hi as <-; discriminate Hdir); try discriminate Hi.
      apply list_elem_of_singleton in Hn. by injection Hn. }
    split; [done|]. split; [done|]. split; [apply delete_insert_eq|]. split.
    + intros k Hk. apply Hleaf in Hk as ->. apply lookup_delete_eq.
    + intros k Hp. rewrite lookup_delete_ne.
      * by apply lookup_union_r, Hother.
      * intros <-. unfold HasPrefix in Hp. by rewrite prefix_refl in Hp.
Qed.

(** X11.  Registering a path that does not exist fails with the
    not-exist error of that path and leaves the watcher as it was. *)
Theorem registration_of_missing_path (w : Watcher) (name P : string) :
  fsAbs fs name = Ok P →
  lookupNode fs P = None →
  AddRecursive fs name w = (w, Some (PathError P true))
  ∧ ∀ isHidden, isHiddenFile P = Ok isHidden →
                excluded w P isHidden = false →
                Add fs name w = (w, Some (PathError P true)).
Proof.
  intros Habs Hnone. split.
  - unfold AddRecursive, listRecursive, Walk. by rewrite Habs, Hnone.
  - intros isHidden Hhid Hex. unfold Add, Watcher_list, Stat.
    by rewrite Habs, Hhid, Hex, Hnone.
Qed.
End RoundTrips.

(** ** The ignore set *)

Section Ignoring.
Context `{Platform}.
Variable fs : FileSystem.

(** [RemoveRecursive] on a path that [filepath.Abs] leaves as it is. *)
Lemma RemoveRecursive_shape (a : string) (w : Watcher) :
  fsAbs fs a = Ok a →
  (RemoveRecursive fs a w).2 = None
  ∧ names (RemoveRecursive fs a w).1 = delete a (names w)
  ∧ files (RemoveRecursive fs a w).1 ⊆ files w
  ∧ files (RemoveRecursive fs a w).1 !! a = None
  ∧ ignored (RemoveRecursive fs a w).1 = ignored w
  ∧ ffh (RemoveRecursive fs a w).1 = ffh w
  ∧ ops (RemoveRecursive fs a w).1 = ops w
  ∧ ignoreHidden (RemoveRecursive fs a w).1 = ignoreHidden w.
Proof.
  intros Habs. unfold RemoveRecursive. rewrite Habs.
  cbn [files names setNames setFiles].
  destruct (files w !! a) as [i|] eqn:Hi.
  - destruct (IsDir i);
      cbn [negb fst snd files names ignored ffh ops ignoreHidden
           setNames setFiles].
    + split; [done|]. split; [done|]. split; [apply map_filter_subseteq|].
      split; [|done]. apply map_lookup_filter_None. right.
      intros x _. simpl. unfold HasPrefix. by rewrite prefix_refl.
    + split; [done|]. split; [done|]. split; [apply delete_subseteq|].
      split; [apply lookup_delete_eq|done].
  - cbn [fst snd files names ignored ffh ops ignoreHidden setNames setFiles].
    done.
Qed.

(** X12.  [Ignore] of paths that [filepath.Abs] resolves returns a nil
    error; the ignore set gains exactly the resolved paths; each of them
    is taken out of the registration set and has no entry in the stored
    mapping; the stored mapping only loses entries; hooks, operation
    filter and the hidden-files switch are untouched. *)
Theorem Ignore_paths (paths abs : list string) (w : Watcher) :
  Forall2 (λ p a, fsAbs fs p = Ok a ∧ fsAbs fs a = Ok a) paths abs →
  (Ignore fs paths w).2 = None
  ∧ (∀ x, x ∈ ignored (Ignore fs paths w).1 ↔ x ∈ abs ∨ x ∈ ignored w)
  ∧ (∀ k, names (Ignore fs paths w).1 !! k
          = if decide (k ∈ abs) then None else names w !! k)
  ∧ files (Ignore fs paths w).1 ⊆ files w
  ∧ (∀ a, a ∈ abs → files (Ignore fs paths w).1 !! a = None)
  ∧ ffh (Ignore fs paths w).1 = ffh w
  ∧ ops (Ignore fs paths w).1 = ops w
  ∧ ignoreHidden (Ignore fs paths w).1 = ignoreHidden w.
Proof.
  intros Hall. revert w.
  induction Hall as [|p a paths abs [Hp Ha] _ IH]; intros w.
  - cbn [Ignore fst snd]. split; [done|]. split.
    { intros x. rewrite elem_of_nil. tauto. }
    split; [done|]. split; [done|]. split; [|done].
    intros a Ha. by apply elem_of_nil in Ha.
  - cbn [Ignore]. rewrite Hp.
    destruct (RemoveRecursive_shape a w Ha)
      as (He & Hn & Hf & Hfa & Hi & Hh & Ho & Hg).
    destruct (RemoveRecursive fs a w) as [w' e].
    cbn [fst snd] in He, Hn, Hf, Hfa, Hi, Hh, Ho, Hg. subst e.
    destruct (IH (setIgnored w' ({[a]} ∪ ignored w')))
      as (IHe & IHi & IHn & IHf & IHfa & IHh & IHo & IHg).
    cbn [files names ignored ffh ops ignoreHidden setIgnored]
      in IHi, IHn, IHf, IHfa, IHh, IHo, IHg.
    split; [done|]. split.
    { intros x. rewrite IHi, elem_of_union, elem_of_singleton, elem_of_cons, Hi.
      tauto. }
    split.
    { intros k. rewrite IHn, Hn.
      destruct (decide (k ∈ abs)) as [Hin|Hnin].
      - rewrite decide_True; [done|by right].
      - destruct (decide (k = a)) as [->|Hne].
        + rewrite decide_True by left. apply lookup_delete_eq.
        + rewrite decide_False.
          * by apply lookup_delete_ne.
          * intros [?|?]%elem_of_cons; done. }
    split; [by trans (files w')|].
    split; [|by rewrite IHh, IHo, IHg].
    intros b [->|Hb]%elem_of_cons; [|by apply IHfa].
    by apply (lookup_weaken_None _ _ _ Hfa).
Qed.

(** X13.  [Ignore] stops at the first path that [filepath.Abs] cannot
    resolve and returns its error; what it did for the paths before it
    stays: the watcher is the one ignoring those paths leaves. *)
Theorem Ignore_stops (paths abs : list string) (bad : string)
    (rest : list string) (e : error) (w : Watcher) :
  Forall2 (λ p a, fsAbs fs p = Ok a ∧ fsAbs fs a = Ok a) paths abs →
  fsAbs fs bad = Err e →
  (Ignore fs (paths ++ bad :: rest) w).2 = Some e
  ∧ (Ignore fs (paths ++ bad :: rest) w).1 = (Ignore fs paths w).1.
Proof.
  intros Hall Hbad. revert w.
  induction Hall as [|p a paths abs [Hp Ha] _ IH]; intros w.
  - cbn [app Ignore]. by rewrite Hbad.
  - cbn [app Ignore]. rewrite Hp.
    destruct (RemoveRecursive_shape a w Ha) as (He & _).
    destruct (RemoveRecursive fs a w) as [w' e']. cbn [snd] in He. subst e'.
    apply IH.
Qed.

(** X14.  The guard of [Add] on the ignore set is not in [AddRecursive]:
    on an ignored path that exists and that the hooks let through, [Add]
    returns nil and changes nothing, while [AddRecursive] returns nil,
    stores nothing, and registers the path as a recursive root. *)
Theorem ignored_root_registration (w : Watcher) (name P : string) (n : Node)
    (i : FileInfo) (isHidden : bool) :
  fsAbs fs name = Ok P → P ∈ ignored w → isHiddenFile P = Ok isHidden →
  lookupNode fs P = Some n → nodeInfo n = Ok i →
  (∀ i0 e, n ≠ Unreadable i0 e) →
  runHooks (ffh w) i P = Pass →
  Add fs name w = (w, None)
  ∧ (AddRecursive fs name w).2 = None
  ∧ files (AddRecursive fs name w).1 = files w
  ∧ names (AddRecursive fs name w).1 = <[P := true]> (names w).
Proof.
  intros Habs Hign Hhid Hnode Hinfo Hread Hhooks.
  assert (Hex : excluded w P isHidden = true).
  { unfold excluded. by rewrite bool_decide_eq_true_2. }
  split.
  { unfold Add. by rewrite Habs, Hhid, Hex. }
  assert (Hl : listRecursive fs w P = (∅, None)).
  { unfold listRecursive, Walk. rewrite Hnode.
    destruct n as [i0|i0 es|i0 e|e].
    - injection Hinfo as <-. cbn [walk]. unfold listWalkFn.
      by rewrite Hhooks, Hhid, Hex.
    - injection Hinfo as <-. cbn [walk]. unfold listWalkFn.
      by rewrite Hhooks, Hhid, Hex.
    - by destruct (Hread i0 e).
    - discriminate Hinfo. }
  unfold AddRecursive. rewrite Habs, Hl.
  cbn [fst snd files names setNames setFiles].
  split; [done|]. split; [|done]. apply (left_id_L ∅ (∪)).
Qed.
End Ignoring.

(** ** The filter hooks *)

Lemma runHooks_app (hs1 hs2 : list FilterFileHookFunc) (i : FileInfo)
    (p : string) :
  runHooks (hs1 ++ hs2) i p
  = match runHooks hs1 i p with
    | Pass => runHooks hs2 i p
    | v => v
    end.
Proof.
  induction hs1 as [|f hs1 IH]; [done|].
  cbn [app runHooks]. destruct (f i p) as [e|]; [|done].
  by destruct (decide (e = ErrSkip)).
Qed.

Lemma ffh_regex_hooks (l : list ((string → bool) * bool)) (w : Watcher) :
  ffh (fold_left (λ w rb, AddFilterHook (regexHook rb) w) l w)
  = (ffh w ++ (regexHook <$> l))%list.
Proof.
  revert w. induction l as [|rb l IH]; intros w.
  - by rewrite app_nil_r.
  - cbn [fold_left]. rewrite IH. cbn [ffh AddFilterHook].
    by rewrite <- app_assoc.
Qed.

Lemma runHooks_regex (l : list ((string → bool) * bool)) (i : FileInfo)
    (p : string) :
  runHooks (regexHook <$> l) i p
  = if forallb (λ rb : (string → bool) * bool,
                  rb.1 (if rb.2 then p else Name i)) l
    then Pass else Skip.
Proof.
  induction l as [|[r b] l IH]; [done|].
  rewrite fmap_cons. cbn [runHooks forallb]. unfold regexHook at 1.
  unfold RegexFilterHook. cbn [fst snd].
  destruct (r (if b then p else Name i)); [exact IH|done].
Qed.

(** X15.  The hooks are asked in the order they were added, and the
    first that answers an error decides: a hook added by [AddFilterHook]
    is asked only when every earlier hook answered nil; its [ErrSkip]
    leaves the entry out, any other error of it ends the listing. *)
Theorem AddFilterHook_last (f : FilterFileHookFunc) (w : Watcher)
    (i : FileInfo) (p : string) :
  runHooks (ffh (AddFilterHook f w)) i p
  = match runHooks (ffh w) i p with
    | Pass =>
        match f i p with
        | None => Pass
        | Some e => if decide (e = ErrSkip) then Skip else Abort e
        end
    | v => v
    end.
Proof.
  cbn [ffh AddFilterHook]. rewrite runHooks_app.
  destruct (runHooks (ffh w) i p); [|done|done].
  cbn [runHooks]. destruct (f i p) as [e|]; [|done].
  by destruct (decide (e = ErrSkip)).
Qed.

(** X16.  Hooks made by [RegexFilterHook] never end a listing with an
    error: after the hooks the watcher already had, an entry passes when
    every regular expression matches (the full path or the name, as each
    hook was told) and is left out otherwise. *)
Theorem regex_hooks_conjunction (l : list ((string → bool) * bool))
    (w : Watcher) (i : FileInfo) (p : string) :
  runHooks (ffh (fold_left (λ w rb, AddFilterHook (RegexFilterHook rb.1 rb.2) w)
                           l w)) i p
  = match runHooks (ffh w) i p with
    | Pass => if forallb (λ rb : (string → bool) * bool,
                            rb.1 (if rb.2 then p else Name i)) l
              then Pass else Skip
    | v => v
    end.
Proof.
  change (λ (w : Watcher) (rb : (string → bool) * bool),
            AddFilterHook (RegexFilterHook rb.1 rb.2) w)
    with (λ (w : Watcher) rb, AddFilterHook (regexHook rb) w).
  by rewrite ffh_regex_hooks, runHooks_app, runHooks_regex.
Qed.

(** ** The outcomes of [Diff] *)

Lemma rangeOf_singleton {A : Type} (o : Order) (l : loop) (k : string) (v : A) :
  rangeOf o l ({[k := v]} : gmap string A) = [(k, v)].
Proof.
  apply Permutation_singleton_r.
  by rewrite rangeOf_perm, map_to_list_singleton.
Qed.

Section DiffOutcomes.
Context `{Platform}.
Variable fs : FileSystem.
Variable o : Order.
Variable w : Watcher.

(** One round of the loop of [retrieveFileList]: it goes on with the
    listing of the root merged in, or it ends in one of three ways. *)
Lemma retrieveLoop_step (name : string) (r : bool)
    (roots : list (string * bool)) (acc : gmap string FileInfo) :
  (quiet name (listRoot fs w name r).2
   ∧ retrieveLoop fs w ((name, r) :: roots) acc
     = retrieveLoop fs w roots ((listRoot fs w name r).1 ∪ acc))
  ∨ (¬ quiet name (listRoot fs w name r).2
     ∧ ((listRoot fs w name r).2 = Some (PathError name true)
        ∧ retrieveLoop fs w ((name, r) :: roots) acc
          = Returns (Err ErrWatchedFileDeleted)
        ∨ (∃ e, (listRoot fs w name r).2 = Some e ∧ IsNotExist e = false
                ∧ retrieveLoop fs w ((name, r) :: roots) acc = Returns (Err e))
        ∨ (∃ e, (listRoot fs w name r).2 = Some e ∧ IsNotExist e = true
                ∧ (∀ p b, e ≠ PathError p b)
                ∧ retrieveLoop fs w ((name, r) :: roots) acc = Panics))).
Proof.
  cbn [retrieveLoop]. destruct (listRoot fs w name r) as [l [e|]];
    cbn [fst snd]; [|by left].
  destruct e as [| | |p [|]|[|] m]; cbn [IsNotExist quiet].
  - right. split; [tauto|]. right. left. by eexists.
  - right. split; [tauto|]. right. left. by eexists.
  - right. split; [tauto|]. right. left. by eexists.
  - destruct (decide (name = p)) as [<-|Hne].
    + right. split; [by intros Hq|]. by left.
    + left. split; [congruence|done].
  - right. split; [tauto|]. right. left. by eexists.
  - right. split; [tauto|]. right. right. by eexists.
  - right. split; [tauto|]. right. left. by eexists.
Qed.

(** The loop returns a listing exactly when every root is quiet. *)
Lemma retrieveLoop_returns (roots : list (string * bool)) :
  ∀ acc,
    (∃ fileList, retrieveLoop fs w roots acc = Returns (Ok fileList))
    ↔ ∀ name r, (name, r) ∈ roots → quiet name (listRoot fs w name r).2.
Proof.
  induction roots as [|[name r] roots IH]; intros acc.
  - split; [|by eexists]. intros _ ? ? Hin. by apply elem_of_nil in Hin.
  - destruct (retrieveLoop_step name r roots acc)
      as [[Hq ->] | [Hq [[_ ->] | [(e & _ & _ & ->) | (e & _ & _ & _ & ->)]]]].
    + rewrite IH. split.
      * intros Hall n b [[= -> ->]|Hin]%elem_of_cons; [done|by apply Hall].
      * intros Hall n b Hin. apply Hall. by right.
    + split; [by intros [? ?]|]. intros Hall. destruct Hq. apply Hall. left.
    + split; [by intros [? ?]|]. intros Hall. destruct Hq. apply Hall. left.
    + split; [by intros [? ?]|]. intros Hall. destruct Hq. apply Hall. left.
Qed.

(** The listing the loop returns is what the roots list, over [acc]. *)
Lemma retrieveLoop_listing (roots : list (string * bool)) :
  ∀ acc fileList,
    retrieveLoop fs w roots acc = Returns (Ok fileList) →
    (∀ k v, fileList !! k = Some v →
            acc !! k = Some v
            ∨ ∃ name r, (name, r) ∈ roots
                        ∧ (listRoot fs w name r).1 !! k = Some v)
    ∧ (∀ k, is_Some (acc !! k) → is_Some (fileList !! k))
    ∧ (∀ name r k, (name, r) ∈ roots →
                   is_Some ((listRoot fs w name r).1 !! k) →
                   is_Some (fileList !! k)).
Proof.
  induction roots as [|[name r] roots IH]; intros acc fileList Hret.
  - injection Hret as <-. split; [by left|]. split; [done|].
    intros ? ? ? Hin. by apply elem_of_nil in Hin.
  - destruct (retrieveLoop_step name r roots acc)
      as [[Hq Heq] | [Hq [[_ Heq] | [(e & _ & _ & Heq) | (e & _ & _ & _ & Heq)]]]];
      rewrite Heq in Hret; try discriminate Hret.
    apply IH in Hret as (Hfrom & Hacc & Hall). split; [|split].
    + intros k v Hk. apply Hfrom in Hk as [Hk|(n & b & Hin & Hk)].
      * apply lookup_union_Some_raw in Hk as [Hk|[_ Hk]]; [|by left].
        right. exists name, r. split; [left|done].
      * right. exists n, b. split; [by right|done].
    + intros k [v Hk]. apply Hacc.
      destruct ((listRoot fs w name r).1 !! k) as [v'|] eqn:Hl.
      * exists v'. by apply lookup_union_Some_l.
      * exists v. by rewrite lookup_union_r.
    + intros n b k [[= -> ->]|Hin]%elem_of_cons [v Hk].
      * apply Hacc. exists v. by apply lookup_union_Some_l.
      * apply (Hall n b k Hin). by exists v.
Qed.

(** The error the loop returns is no not-exist error: it is
    [ErrWatchedFileDeleted] for a root that is gone, or the error of the
    listing of a root. *)
Lemma retrieveLoop_error (roots : list (string * bool)) :
  ∀ acc e,
    retrieveLoop fs w roots acc = Returns (Err e) →
    IsNotExist e = false
    ∧ (e = ErrWatchedFileDeleted
       ∧ (∃ name r, (name, r) ∈ roots
                    ∧ (listRoot fs w name r).2 = Some (PathError name true))
       ∨ ∃ name r, (name, r) ∈ roots ∧ (listRoot fs w name r).2 = Some e).
Proof.
  induction roots as [|[name r] roots IH]; intros acc e Hret; [done|].
  destruct (retrieveLoop_step name r roots acc)
    as [[Hq Heq] | [Hq [[Hl Heq] | [(e' & Hl & Hne & Heq)
                                   | (e' & _ & _ & _ & Heq)]]]];
    rewrite Heq in Hret; try discriminate Hret.
  - apply IH in Hret as [Hne [[-> (n & b & Hin & Hl)] | (n & b & Hin & Hl)]].
    + split; [done|]. left. split; [done|]. exists n, b. split; [by right|done].
    + split; [done|]. right. exists n, b. split; [by right|done].
  - injection Hret as <-. split; [done|]. left. split; [done|].
    exists name, r. split; [left|done].
  - injection Hret as <-. split; [done|]. right.
    exists name, r. split; [left|done].
Qed.

(** The loop panics only on a not-exist error that is no
    [*os.PathError]. *)
Lemma retrieveLoop_panics (roots : list (string * bool)) :
  ∀ acc,
    retrieveLoop fs w roots acc = Panics →
    ∃ name r e, (name, r) ∈ roots ∧ (listRoot fs w name r).2 = Some e
                ∧ IsNotExist e = true ∧ ∀ p b, e ≠ PathError p b.
Proof.
  induction roots as [|[name r] roots IH]; intros acc Hret; [done|].
  destruct (retrieveLoop_step name r roots acc)
    as [[Hq Heq] | [Hq [[Hl Heq] | [(e' & Hl & Hne & Heq)
                                   | (e' & Hl & Hne & Hp & Heq)]]]];
    rewrite Heq in Hret; try discriminate Hret.
  - apply IH in Hret as (n & b & e & Hin & Hrest).
    exists n, b, e. split; [by right|done].
  - exists name, r, e'. split; [left|done].
Qed.

(** [Diff] in terms of the loop over the registered roots. *)
Lemma Diff_outcome :
  (Diff fs o w).2
  = match retrieveLoop fs w (rangeOf o LoopNames (names w)) ∅ with
    | Returns (Ok fileList) => Returns (Ok (getDiff o w fileList))
    | Returns (Err e) => Returns (Err e)
    | Panics => Panics
    end.
Proof.
  unfold Diff, retrieveFileList.
  by destruct (retrieveLoop fs w (rangeOf o LoopNames (names w)) ∅)
    as [[fileList|e]|].
Qed.

(** X17.  [Diff] returns events exactly when every registered root is
    quiet: its listing succeeds, or fails with a not-exist
    [*os.PathError] of a path other than the root (which is swallowed).
    This does not depend on the order in which the roots are taken. *)
Theorem Diff_returns_events :
  (∃ events, (Diff fs o w).2 = Returns (Ok events))
  ↔ ∀ name r, names w !! name = Some r → quiet name (listRoot fs w name r).2.
Proof.
  rewrite Diff_outcome.
  pose proof (retrieveLoop_returns (rangeOf o LoopNames (names w)) ∅) as Hret.
  split.
  - intros [events Hev] name r Hin. apply Hret; [|by apply elem_of_rangeOf].
    destruct (retrieveLoop fs w (rangeOf o LoopNames (names w)) ∅)
      as [[fileList|e]|]; try discriminate Hev. by eexists.
  - intros Hall. destruct Hret as [_ [fileList ->]]; [|by eexists].
    intros name r Hin. apply Hall. by apply elem_of_rangeOf in Hin.
Qed.

(** X18.  The events of a [Diff] that succeeds are those of [getDiff] on
    a fresh mapping that holds what the registered roots list: each of
    its entries is an entry of the listing of some root, and every path
    some root lists has an entry. *)
Theorem Diff_fresh_mapping (events : list Event) :
  (Diff fs o w).2 = Returns (Ok events) →
  ∃ fileList,
    events = getDiff o w fileList
    ∧ (∀ k v, fileList !! k = Some v →
              ∃ name r, names w !! name = Some r
                        ∧ (listRoot fs w name r).1 !! k = Some v)
    ∧ (∀ name r k, names w !! name = Some r →
                   is_Some ((listRoot fs w name r).1 !! k) →
                   is_Some (fileList !! k)).
Proof.
  rewrite Diff_outcome.
  destruct (retrieveLoop fs w (rangeOf o LoopNames (names w)) ∅)
    as [[fileList|e]|] eqn:Hret; intros Hev; try discriminate Hev.
  injection Hev as <-.
  apply retrieveLoop_listing in Hret as (Hfrom & _ & Hall).
  exists fileList. split; [done|]. split.
  - intros k v Hk. apply Hfrom in Hk as [Hk|(n & b & Hin & Hk)];
      [by rewrite lookup_empty in Hk|].
    exists n, b. by apply elem_of_rangeOf in Hin.
  - intros n b k Hin. apply Hall. by apply elem_of_rangeOf.
Qed.

(** X19.  An error [Diff] returns is never a not-exist error: it is
    [ErrWatchedFileDeleted], standing for the not-exist error of a
    registered root itself, or it is the error with which the listing of
    some registered root failed. *)
Theorem Diff_error (e : error) :
  (Diff fs o w).2 = Returns (Err e) →
  IsNotExist e = false
  ∧ (e = ErrWatchedFileDeleted
     ∧ (∃ name r, names w !! name = Some r
                  ∧ (listRoot fs w name r).2 = Some (PathError name true))
     ∨ ∃ name r, names w !! name = Some r
                 ∧ (listRoot fs w name r).2 = Some e).
Proof.
  rewrite Diff_outcome.
  destruct (retrieveLoop fs w (rangeOf o LoopNames (names w)) ∅)
    as [[fileList|e']|] eqn:Hret; intros Hev; try discriminate Hev.
  injection Hev as ->.
  apply retrieveLoop_error in Hret
    as [Hne [[-> (n & b & Hin & Hl)] | (n & b & Hin & Hl)]];
    apply elem_of_rangeOf in Hin; (split; [done|]).
  - left. split; [done|]. by exists n, b.
  - right. by exists n, b.
Qed.

(** X20.  [Diff] panics only when the listing of a registered root fails
    with a not-exist error that is no [*os.PathError], on which the type
    assertion of [retrieveFileList] fails. *)
Theorem Diff_panics :
  (Diff fs o w).2 = Panics →
  ∃ name r e, names w !! name = Some r
              ∧ (listRoot fs w name r).2 = Some e
              ∧ IsNotExist e = true ∧ ∀ p b, e ≠ PathError p b.
Proof.
  rewrite Diff_outcome.
  destruct (retrieveLoop fs w (rangeOf o LoopNames (names w)) ∅)
    as [[fileList|e']|] eqn:Hret; intros Hev; try discriminate Hev.
  apply retrieveLoop_panics in Hret as (n & b & e & Hin & Hrest).
  exists n, b, e. by apply elem_of_rangeOf in Hin.
Qed.
End DiffOutcomes.

(** ** The first [Diff] after a registration *)

Section FirstDiff.
Context `{Platform}.
Variable fs : FileSystem.
Variable o : Order.

(** The listings read the hooks, the ignore set and the hidden-files
    switch of the watcher, not what it has registered or stored. *)
Lemma listEntries_frame (w w' : Watcher) (name : string)
    (fInfoList : list FileInfo) (fileList : gmap string FileInfo) :
  ffh w' = ffh w → ignored w' = ignored w → ignoreHidden w' = ignoreHidden w →
  listEntries w' name fInfoList fileList = listEntries w name fInfoList fileList.
Proof.
  intros Hh Hi Hg. revert fileList.
  induction fInfoList as [|fInfo l IH]; intros fileList; [done|].
  cbn [listEntries]. unfold excluded. rewrite Hh, Hi, Hg.
  destruct (isHiddenFile (Join name (Name fInfo))) as [h|e]; [|done].
  destruct (bool_decide (Join name (Name fInfo) ∈ ignored w)
            || ignoreHidden w && h); [apply IH|].
  destruct (runHooks (ffh w) fInfo (Join name (Name fInfo))); [|apply IH|done].
  apply IH.
Qed.

Lemma listRoot_frame (w : Watcher) (f : gmap string FileInfo)
    (n : gmap string bool) (name : string) (r : bool) :
  listRoot fs (setNames (setFiles w f) n) name r = listRoot fs w name r.
Proof.
  unfold listRoot. destruct r; [reflexivity|].
  unfold Watcher_list. destruct (Stat fs name) as [stat|e]; [|done].
  destruct (negb (IsDir stat)); [done|].
  destruct (ReadDir fs name) as [l|e]; [|done].
  by rewrite (listEntries_frame w).
Qed.

(** The [Diff] of a watcher with the one root [P], whose listing is what
    the watcher stores. *)
Lemma Diff_one_root (w : Watcher) (P : string) (r : bool)
    (fileList : gmap string FileInfo) :
  names w = {[P := r]} → listRoot fs w P r = (fileList, None) →
  files w = fileList →
  (Diff fs o w).2 = Returns (Ok []).
Proof.
  intros Hn Hl Hf. rewrite Diff_outcome, Hn, rangeOf_singleton.
  cbn [retrieveLoop]. rewrite Hl. rewrite (right_id_L ∅ (∪)).
  unfold getDiff. by rewrite <- Hf, diffEvents_same, filterRes_nil.
Qed.

(** X21.  On a watcher that has nothing registered and nothing stored, a
    [Diff] that follows a successful [Add] or [AddRecursive], the file
    system being as it was, returns no event. *)
Theorem Diff_after_registration (w w' : Watcher) (name : string) :
  names w = ∅ → files w = ∅ →
  Add fs name w = (w', None) ∨ AddRecursive fs name w = (w', None) →
  (Diff fs o w').2 = Returns (Ok []).
Proof.
  intros Hn Hf [Hadd|Hadd].
  - unfold Add in Hadd. destruct (fsAbs fs name) as [P|e]; [|discriminate Hadd].
    destruct (isHiddenFile P) as [h|e]; [|discriminate Hadd].
    destruct (excluded w P h).
    + injection Hadd as <-. rewrite Diff_outcome, Hn, rangeOf_empty.
      cbn [retrieveLoop]. unfold getDiff.
      by rewrite <- Hf, diffEvents_same, filterRes_nil.
    + destruct (Watcher_list fs w P) as [fileList|e] eqn:Hl;
        [|discriminate Hadd].
      injection Hadd as <-.
      apply (Diff_one_root _ P false (fileList ∪ files w)).
      * cbn [names setNames]. by rewrite Hn, insert_empty.
      * rewrite listRoot_frame. unfold listRoot. rewrite Hl.
        by rewrite Hf, (right_id_L ∅ (∪)).
      * done.
  - unfold AddRecursive in Hadd.
    destruct (fsAbs fs name) as [P|e]; [|discriminate Hadd].
    destruct (listRecursive fs w P) as [fileList [e|]] eqn:Hl;
      [discriminate Hadd|].
    injection Hadd as <-.
    apply (Diff_one_root _ P true (fileList ∪ files w)).
    + cbn [names setNames]. by rewrite Hn, insert_empty.
    + rewrite listRoot_frame. unfold listRoot. rewrite Hl.
      by rewrite Hf, (right_id_L ∅ (∪)).
    + done.
Qed.
End FirstDiff.

(** ** The order of the events *)

Lemma filterRes_app (wops : option (gset Op)) (res1 res2 : list Event) :
  filterRes wops (res1 ++ res2)
  = (filterRes wops res1 ++ filterRes wops res2)%list.
Proof.
  unfold filterRes. destruct wops as [s|]; [|done].
  destruct (decide (0 < size s)); [|done].
  rewrite !filter_loop. simpl. apply filter_app.
Qed.

Lemma Forall_filterRes (P : Event → Prop) (wops : option (gset Op))
    (res : list Event) :
  Forall P res → Forall P (filterRes wops res).
Proof.
  rewrite !Forall_forall. intros Hall e He. apply Hall.
  by apply elem_of_filterRes in He.
Qed.

Section EventOrder.
Context `{Platform}.
Variable o : Order.
Variable w : Watcher.
Variable fileList : gmap string FileInfo.

(** X22.  The events [getDiff] returns come in four groups, in this
    order: the Write and Chmod events, the Rename and Move events, the
    Create events, the Remove events; the order of iteration only
    arranges the events inside a group. *)
Theorem getDiff_groups :
  ∃ changes pairs creates removes,
    getDiff o w fileList = (changes ++ pairs ++ creates ++ removes)%list
    ∧ Forall (λ e, EvOp e = Write ∨ EvOp e = Chmod) changes
    ∧ Forall isPair pairs
    ∧ Forall (λ e, EvOp e = Create) creates
    ∧ Forall (λ e, EvOp e = Remove) removes.
Proof.
  destruct (diffEvents_parts o w fileList)
    as (removes & creates & evs & Heq & [_ _ _ Hev _ _ _] & _).
  exists (filterRes (ops w)
            (flat_map (inPlace w) (rangeOf o LoopFresh fileList))),
         (filterRes (ops w) evs),
         (filterRes (ops w) (createOf <$> rangeOf o LoopRestCreates creates)),
         (filterRes (ops w) (removeOf <$> rangeOf o LoopRestRemoves removes)).
  split; [unfold getDiff; by rewrite Heq, !filterRes_app|].
  split; [|split; [|split]]; apply Forall_filterRes, Forall_forall; intros e He.
  - apply inPlace_shape in He as (k & v & old & _ & _ & [-> | ->]);
      [by left|by right].
  - apply Hev in He as (p1 & i1 & p2 & i2 & -> & _).
    unfold isPair, evOf. simpl. case_decide; [by left|by right].
  - by apply list_elem_of_fmap in He as [kv [-> _]].
  - by apply list_elem_of_fmap in He as [kv [-> _]].
Qed.
End EventOrder.

(** ** The further properties on the examples *)

(** The file [/d/a] was touched and [/d/y] has appeared: nothing is
    removed. *)
Lemma getDiff_nothing_removed_witness :
  filter (λ e, EvOp e = Create)
         (diffEvents mapOrder watcherOfA touchedAndCreated)
  ≡ₚ createOf <$> map_to_list
                    (filter (λ kv, files watcherOfA !! kv.1 = None)
                            touchedAndCreated).
Proof.
  apply (getDiff_nothing_removed mapOrder watcherOfA touchedAndCreated).
  intros k [v Hk]. unfold watcherOfA in Hk. cbn [files] in Hk.
  apply lookup_singleton_Some in Hk as [<- _].
  eexists. vm_compute. reflexivity.
Defined.

(** The file [/d/b] is gone and nothing has appeared. *)
Lemma getDiff_nothing_created_witness :
  filter (λ e, EvOp e = Remove) (diffEvents mapOrder watcherOfB onlyD)
  ≡ₚ removeOf <$> map_to_list
                    (filter (λ kv, onlyD !! kv.1 = None) (files watcherOfB)).
Proof.
  apply (getDiff_nothing_created mapOrder watcherOfB onlyD).
  intros k [v Hk]. unfold onlyD in Hk.
  apply lookup_singleton_Some in Hk as [<- _].
  eexists. vm_compute. reflexivity.
Defined.

(** The renamed file is reported once, under its new path. *)
Lemma created_reported_once_witness :
  length (filter (λ e, Path e = "/d/x") (diffEvents mapOrder watcherOfB renamedB))
  = 1.
Proof.
  apply (created_reported_once mapOrder watcherOfB renamedB "/d/x"
           (info "x" 1 420 11)); vm_compute; reflexivity.
Defined.

Lemma removed_reported_witness :
  removeOf ("/d/b", info "b" 1 420 11) ∈ diffEvents mapOrder watcherOfB renamedB
  ∨ ∃ e, e ∈ diffEvents mapOrder watcherOfB renamedB ∧ isPair e
         ∧ OldPath e = "/d/b".
Proof.
  apply (removed_reported mapOrder watcherOfB renamedB "/d/b"
           (info "b" 1 420 11)); vm_compute; reflexivity.
Defined.

(** [/d/a] is gone and [/d/y], a file of another identity, is created. *)
Lemma create_has_no_match_witness :
  sameFile (info "a" 1 420 10) (info "y" 1 420 12) = false.
Proof.
  apply (create_has_no_match mapOrder watcherOfA createdY
           (createOf ("/d/y", info "y" 1 420 12)) "/d/a" (info "a" 1 420 10)).
  - apply (list_elem_of_lookup_2 _ 0). vm_compute. reflexivity.
  - reflexivity.
  - vm_compute. reflexivity.
  - vm_compute. reflexivity.
Defined.

Lemma listRecursive_entries_witness :
  admitted New "/r/sub/main.go" (asFile (info "main.go" 1 420 6)).
Proof.
  apply (listRecursive_entries treeFS New "/r" "/r/sub/main.go"
           (asFile (info "main.go" 1 420 6))).
  vm_compute. reflexivity.
Defined.

Lemma listRecursive_whole_tree_witness :
  (listRecursive treeFS New "/r").2 = None
  ∧ size (listRecursive treeFS New "/r").1 = 6.
Proof.
  destruct (listRecursive_whole_tree treeFS New "/r" treeOfR)
    as (Herr & _ & Hsize).
  - reflexivity.
  - reflexivity.
  - apply (bool_decide_unpack _). vm_compute. reflexivity.
  - intros p n i _ _. split; [reflexivity|]. split; [apply not_elem_of_empty|].
    eexists. split; [reflexivity|discriminate].
  - split; [exact Herr|]. rewrite Hsize. reflexivity.
Defined.

(** [Add "/r"] on [treeFS], then [Remove "/r"]. *)
Lemma Remove_after_Add_witness :
  (Add treeFS "/r" New).2 = None
  ∧ names (Watcher_Remove treeFS "/r" (Add treeFS "/r" New).1).1 = ∅
  ∧ files (Watcher_Remove treeFS "/r" (Add treeFS "/r" New).1).1 !! "/r/a.go"
    = None.
Proof.
  destruct (Remove_after_Add treeFS New "/r" "/r" false
              (asDir (info "r" 1 493 1))
              [asDir (info ".git" 1 493 3); asFile (info "a.go" 1 420 2);
               asDir (info "sub" 1 493 5)])
    as (Hadd & _ & Hnames & Hfiles).
  - reflexivity.
  - discriminate.
  - reflexivity.
  - reflexivity.
  - vm_compute. reflexivity.
  - reflexivity.
  - vm_compute. reflexivity.
  - intros fInfo Hin. repeat (apply elem_of_cons in Hin as [->|Hin]);
      try discriminate. by apply elem_of_nil in Hin.
  - intros fInfo Hin. repeat (apply elem_of_cons in Hin as [->|Hin]);
      try reflexivity. by apply elem_of_nil in Hin.
  - intros fInfo _. eexists. vm_compute. reflexivity.
  - split; [exact Hadd|]. split.
    + rewrite Hnames. apply delete_empty.
    + rewrite Hfiles. vm_compute. reflexivity.
Defined.

(** [AddRecursive "/r"] on [treeFS], then [RemoveRecursive "/r"]. *)
Lemma RemoveRecursive_after_AddRecursive_witness :
  (AddRecursive treeFS "/r" New).2 = None
  ∧ files (RemoveRecursive treeFS "/r" (AddRecursive treeFS "/r" New).1).1
      !! "/r/sub/main.go" = None.
Proof.
  destruct (RemoveRecursive_after_AddRecursive treeFS New "/r" "/r" treeOfR
              (asDir (info "r" 1 493 1)))
    as (Hadd & _ & _ & Hfiles & _).
  - reflexivity.
  - reflexivity.
  - apply (bool_decide_unpack _). vm_compute. reflexivity.
  - vm_compute. reflexivity.
  - vm_compute. reflexivity.
  - split; [exact Hadd|]. apply Hfiles. eexists. vm_compute. reflexivity.
Defined.

Lemma registration_of_missing_path_witness :
  AddRecursive (absFS []) "/gone" New = (New, Some (PathError "/gone" true)).
Proof.
  apply (registration_of_missing_path (absFS []) New "/gone" "/gone");
    reflexivity.
Defined.

(** Ignoring [/a/b] in the watcher of [/a/b] and [/a/bc]. *)
Lemma Ignore_paths_witness :
  (Ignore siblingsFS ["/a/b"] watcherOfSiblings).2 = None
  ∧ files (Ignore siblingsFS ["/a/b"] watcherOfSiblings).1 !! "/a/b" = None.
Proof.
  destruct (Ignore_paths siblingsFS ["/a/b"] ["/a/b"] watcherOfSiblings)
    as (Herr & _ & _ & _ & Hfiles & _).
  - repeat constructor.
  - split; [exact Herr|]. apply Hfiles. left.
Defined.

(** Without a working directory the relative path [b] stops [Ignore];
    [/a] is ignored all the same. *)
Lemma Ignore_stops_witness :
  (Ignore noCwdFS ["/a"; "b"] New).2 = Some (OtherError false "getwd")
  ∧ (Ignore noCwdFS ["/a"; "b"] New).1 = (Ignore noCwdFS ["/a"] New).1.
Proof.
  apply (Ignore_stops noCwdFS ["/a"] ["/a"] "b" [] (OtherError false "getwd")
           New).
  - repeat constructor.
  - reflexivity.
Defined.

(** [/r] is ignored: [Add] does nothing, [AddRecursive] registers it. *)
Lemma ignored_root_registration_witness :
  Add treeFS "/r" (setIgnored New {["/r"]}) = (setIgnored New {["/r"]}, None)
  ∧ names (AddRecursive treeFS "/r" (setIgnored New {["/r"]})).1
    = <["/r" := true]> ∅.
Proof.
  destruct (ignored_root_registration treeFS (setIgnored New {["/r"]})
              "/r" "/r" treeOfR (asDir (info "r" 1 493 1)) false)
    as (Hadd & _ & _ & Hnames).
  - reflexivity.
  - apply (bool_decide_unpack _). vm_compute. reflexivity.
  - reflexivity.
  - reflexivity.
  - reflexivity.
  - discriminate.
  - reflexivity.
  - split; [exact Hadd | exact Hnames].
Defined.

(** The tree is as [watcherOfTree] stored it: the fresh mapping of the
    [Diff] holds every path the root lists. *)
Lemma Diff_fresh_mapping_witness :
  ∃ fileList,
    [] = getDiff mapOrder watcherOfTree fileList
    ∧ is_Some (fileList !! "/r/sub/main.go").
Proof.
  destruct (Diff_fresh_mapping treeFS mapOrder watcherOfTree [])
    as (fileList & Hev & _ & Hall).
  - vm_compute. reflexivity.
  - exists fileList. split; [exact Hev|].
    apply (Hall "/r" true).
    + vm_compute. reflexivity.
    + eexists. vm_compute. reflexivity.
Defined.

(** The root [/gone] is gone. *)
Lemma Diff_error_witness :
  IsNotExist ErrWatchedFileDeleted = false
  ∧ (ErrWatchedFileDeleted = ErrWatchedFileDeleted
     ∧ (∃ name r, names (watcherOfGone false) !! name = Some r
                  ∧ (listRoot (absFS []) (watcherOfGone false) name r).2
                    = Some (PathError name true))
     ∨ ∃ name r, names (watcherOfGone false) !! name = Some r
                 ∧ (listRoot (absFS []) (watcherOfGone false) name r).2
                   = Some ErrWatchedFileDeleted).
Proof.
  apply (Diff_error (absFS []) mapOrder (watcherOfGone false)).
  vm_compute. reflexivity.
Defined.

(** The hook of [watcherOfStale] answers a bare not-exist error. *)
Lemma Diff_panics_witness :
  ∃ name r e, names watcherOfStale !! name = Some r
              ∧ (listRoot treeFS watcherOfStale name r).2 = Some e
              ∧ IsNotExist e = true ∧ ∀ p b, e ≠ PathError p b.
Proof.
  apply (Diff_panics treeFS mapOrder watcherOfStale).
  vm_compute. reflexivity.
Defined.

(** [Add "/r"] with hidden files ignored, then [Diff]. *)
Lemma Diff_after_registration_witness :
  (Diff treeFS mapOrder (Add treeFS "/r" (IgnoreHiddenFiles true New)).1).2
  = Returns (Ok []).
Proof.
  apply (Diff_after_registration treeFS mapOrder (IgnoreHiddenFiles true New)
           (Add treeFS "/r" (IgnoreHiddenFiles true New)).1 "/r").
  - reflexivity.
  - reflexivity.
  - left. vm_compute. reflexivity.
Defined.
